(** * chess-openings-analytics: the ETL pipeline ([src/etl])

    A shallow embedding of [src/etl/load.py] (the Loader) and
    [src/etl/collector.py] (the Collector), and the properties of the
    specification that are about them.

    Conventions of the embedding.
    - A Python [str] is a [string]: the sequence of the bytes of its UTF-8
      encoding, which is how the texts reach the program (both files are
      read as UTF-8).  The separators and patterns the source names are
      ASCII, so splitting at them and replacing them act on the bytes as
      they do on the code points.  The operations that classify characters
      ([str.split()], [int()] and [str.splitlines()]) work on the
      characters of the text, [PyStr.chars], and on their code points,
      [PyStr.code], with the whitespace, decimal digit and line boundary
      characters of Unicode 14.0.0 (CPython 3.11).
    - A Python [int] is a [Z].
    - A raised exception is the [Raise] branch of [result]; statements are
      sequenced with the bind of that monad.
    - The relational store is a record of finite maps, one per table, keyed
      by the column of the table's uniqueness constraint. *)

From stdpp Require Import gmap strings list fin_maps.
From Stdlib Require Import ZArith Ascii String.

Local Open Scope string_scope.
Local Open Scope Z_scope.

(** ** Exceptions and results *)

Inductive exn : Type :=
  | ValueError      (* int() on a text that is not an integer literal *)
  | IndexError      (* [0] on an empty list *)
  | RuntimeError    (* raised by export_games when the token is not set *)
  | ResponseError   (* berserk.exceptions.ResponseError *)
  | OtherError.     (* any exception of another class *)

Inductive result (A : Type) : Type :=
  | Ok (a : A)
  | Raise (e : exn).
Arguments Ok {A} a.
Arguments Raise {A} e.

#[global] Instance result_ret : MRet result := fun _ a => Ok a.

#[global] Instance result_bind : MBind result := fun _ _ k r =>
  match r with
  | Ok a => k a
  | Raise e => Raise e
  end.

#[global] Instance exn_eq_dec : EqDecision exn.
Proof. solve_decision. Defined.

(** ** The string operations of Python the source calls *)

Module PyStr.

(** [c in s] for a one-character [c]. *)
Fixpoint contains (c : ascii) (s : string) : bool :=
  match s with
  | EmptyString => false
  | String a s' => if Ascii.eqb a c then true else contains c s'
  end.

(** [s.split(c)] for a one-character separator: never empty. *)
Fixpoint split_sep (c : ascii) (s : string) : list string :=
  match s with
  | EmptyString => [EmptyString]
  | String a s' =>
      if Ascii.eqb a c then EmptyString :: split_sep c s'
      else match split_sep c s' with
           | h :: t => String a h :: t
           | [] => [String a EmptyString]
           end
  end.

(** [str.isspace] on one ASCII character: TAB..CR, FS..US and space. *)
Definition isspace (a : ascii) : bool :=
  let n := nat_of_ascii a in
  ((9 <=? n)%nat && (n <=? 13)%nat)
  || ((28 <=? n)%nat && (n <=? 32)%nat).

(** The characters of a text.  In UTF-8 a byte from 128 to 191 continues
    the character of the byte before it, which is not an ASCII byte; every
    other byte starts a character. *)
Definition byte (a : ascii) : Z := Z.of_nat (nat_of_ascii a).

Definition is_cont (b : ascii) : bool := (128 <=? byte b) && (byte b <? 192).

Definition continues (a b : ascii) : bool := (128 <=? byte a) && is_cont b.

Definition continued (a : ascii) (s' : string) : bool :=
  match s' with
  | String b _ => continues a b
  | EmptyString => false
  end.

Fixpoint chars (s : string) : list string :=
  match s with
  | EmptyString => []
  | String a s' =>
      match chars s' with
      | h :: t =>
          if continued a s' then String a h :: t
          else String a EmptyString :: h :: t
      | [] => [String a EmptyString]
      end
  end.

(** The code point of a character: the value its one to four bytes encode,
    when they are the UTF-8 encoding of a code point. *)
Definition code (c : string) : option Z :=
  match c with
  | String a EmptyString =>
      if byte a <? 128 then Some (byte a) else None
  | String a (String b EmptyString) =>
      if (194 <=? byte a) && (byte a <? 224) && is_cont b
      then Some ((byte a - 192) * 64 + (byte b - 128))
      else None
  | String a (String b (String c EmptyString)) =>
      let cp := (byte a - 224) * 4096 + (byte b - 128) * 64
                + (byte c - 128) in
      if (224 <=? byte a) && (byte a <? 240) && is_cont b && is_cont c
         && (2048 <=? cp) && negb ((55296 <=? cp) && (cp <=? 57343))
      then Some cp
      else None
  | String a (String b (String c (String d EmptyString))) =>
      let cp := (byte a - 240) * 262144 + (byte b - 128) * 4096
                + (byte c - 128) * 64 + (byte d - 128) in
      if (240 <=? byte a) && (byte a <? 245) && is_cont b && is_cont c
         && is_cont d && (65536 <=? cp) && (cp <=? 1114111)
      then Some cp
      else None
  | _ => None
  end.

(** The whitespace of [str.split()] and [str.isspace]: the code points
    U+0009..U+000D, U+001C..U+0020, U+0085, U+00A0, U+1680, U+2000..U+200A,
    U+2028, U+2029, U+202F, U+205F and U+3000. *)
Definition unicode_space (cp : Z) : bool :=
  ((9 <=? cp) && (cp <=? 13)) || ((28 <=? cp) && (cp <=? 32))
  || (cp =? 133) || (cp =? 160) || (cp =? 5760)
  || ((8192 <=? cp) && (cp <=? 8202))
  || (cp =? 8232) || (cp =? 8233) || (cp =? 8239) || (cp =? 8287)
  || (cp =? 12288).

Definition is_space (c : string) : bool :=
  match code c with
  | Some cp => unicode_space cp
  | None => false
  end.

(** [s.split()]: the maximal runs of characters that are not whitespace. *)
Fixpoint tokens (cs : list string) : list string :=
  match cs with
  | [] => []
  | c :: cs' =>
      if is_space c then tokens cs'
      else match cs' with
           | [] => [c]
           | d :: _ =>
               if is_space d then c :: tokens cs'
               else match tokens cs' with
                    | h :: t => (c ++ h) :: t
                    | [] => [c]
                    end
           end
  end.

Definition split_ws (s : string) : list string := tokens (chars s).

(** [l[0]] and [l[-1]]. *)
Definition first {A : Type} (l : list A) : result A :=
  match l with
  | x :: _ => Ok x
  | [] => Raise IndexError
  end.

Definition last {A : Type} (l : list A) : result A :=
  match List.rev l with
  | x :: _ => Ok x
  | [] => Raise IndexError
  end.

(** [s.startswith(p)]. *)
Fixpoint startswith (p s : string) : bool :=
  match p, s with
  | EmptyString, _ => true
  | String _ _, EmptyString => false
  | String a p', String b s' => Ascii.eqb a b && startswith p' s'
  end.

(** [s.replace(old, new)]: the occurrences of [old] are found from the
    left and do not overlap.  [skip] counts the characters of a found
    occurrence that are still to be passed over. *)
Fixpoint replace_from (old new : string) (skip : nat) (s : string) : string :=
  match s with
  | EmptyString => EmptyString
  | String a s' =>
      match skip with
      | S k => replace_from old new k s'
      | O =>
          if startswith old s
          then new ++ replace_from old new (String.length old - 1) s'
          else String a (replace_from old new 0 s')
      end
  end.

Fixpoint intersperse (new s : string) : string :=
  match s with
  | EmptyString => EmptyString
  | String a s' => String a (new ++ intersperse new s')
  end.

Definition replace (old new s : string) : string :=
  match old with
  | EmptyString => new ++ intersperse new s
  | String _ _ => replace_from old new 0 s
  end.

(** Every character of [s] satisfies [p]; [cs] without its leading
    characters that satisfy [p]. *)
Fixpoint all_chars (p : ascii -> bool) (s : string) : bool :=
  match s with
  | EmptyString => true
  | String a s' => p a && all_chars p s'
  end.

Fixpoint lstrip (p : string -> bool) (cs : list string) : list string :=
  match cs with
  | [] => []
  | c :: cs' => if p c then lstrip p cs' else cs
  end.

(** The code points of the digit zero of the scripts that have decimal
    digits; the nine code points after each are its digits one to nine. *)
Definition zeros : list Z :=
  [48; 1632; 1776; 1984; 2406; 2534; 2662; 2790; 2918; 3046; 3174; 3302;
   3430; 3558; 3664; 3792; 3872; 4160; 4240; 6112; 6160; 6470; 6608; 6784;
   6800; 6992; 7088; 7232; 7248; 42528; 43216; 43264; 43472; 43504; 43600;
   44016; 65296; 66720; 68912; 69734; 69872; 69942; 70096; 70384; 70736;
   70864; 71248; 71360; 71472; 71904; 72016; 72784; 73040; 73120; 92768;
   92864; 93008; 120782; 120792; 120802; 120812; 120822; 123200; 123632;
   125264; 130032].

Definition decimal_value (cp : Z) : option Z :=
  match List.find (fun z => (z <=? cp) && (cp <? z + 10)) zeros with
  | Some z => Some (cp - z)
  | None => None
  end.

Definition decimal (c : string) : option Z :=
  match code c with
  | Some cp => decimal_value cp
  | None => None
  end.

Definition int_space (c : string) : bool :=
  match code c with
  | Some cp =>
      ((9 <=? cp) && (cp <=? 13)) || (cp =? 32)
      || ((128 <=? cp) && unicode_space cp)
  | None => false
  end.

Inductive seen : Type := Nothing | Digit | Underscore.

Definition is_Digit (p : seen) : bool :=
  match p with Digit => true | _ => false end.

(** The value of the run of digits and the number of its digits. *)
Fixpoint int_digits (acc n : Z) (p : seen) (cs : list string)
  : option (Z * Z) :=
  match cs with
  | [] => if is_Digit p then Some (acc, n) else None
  | c :: cs' =>
      match decimal c with
      | Some d => int_digits (10 * acc + d) (n + 1) Digit cs'
      | None =>
          if String.eqb c "_"
          then (if is_Digit p then int_digits acc n Underscore cs' else None)
          else if is_Digit p && forallb int_space cs then Some (acc, n)
               else None
      end
  end.

(** The default of [sys.get_int_max_str_digits()]. *)
Definition int_max_str_digits : Z := 4300.

(** [int(s)] in base 10.  The characters of the text are read as
    [int] reads them: a decimal digit of any script stands for its value
    and a whitespace character outside ASCII for a space.  The text is then
    whitespace (TAB..CR and space), an optional sign, and a run of digits
    in which one underscore may stand between two digits, followed by
    whitespace; a run of more digits than [int_max_str_digits] is
    refused. *)
Definition int (s : string) : result Z :=
  let cs := lstrip int_space (chars s) in
  let body :=
    match cs with
    | c :: r =>
        if String.eqb c "-"
        then (fun zn : Z * Z => (- zn.1, zn.2)) <$> int_digits 0 0 Nothing r
        else if String.eqb c "+" then int_digits 0 0 Nothing r
        else int_digits 0 0 Nothing cs
    | [] => None
    end in
  match body with
  | Some (z, n) => if n >? int_max_str_digits then Raise ValueError else Ok z
  | None => Raise ValueError
  end.

End PyStr.

(** ** The relational store

    [src/db] and the DDL are not among the sources; [load.py] fixes the
    tables, their columns and, through its [ON CONFLICT] clauses, the
    uniqueness constraint of each. *)

Module Player.
Record row : Type := { player_id : Z; highest_rating : Z }.
End Player.

Module Opening.
Record row : Type := { opening_id : Z; name : string; family : string }.
End Opening.

Module Game.
(** The [game_dict] of [process_pgn], which is also the row of [games]. *)
Record row : Type := {
  game_id : string;
  played_at : string;
  white_id : Z;
  black_id : Z;
  white_rating : Z;
  black_rating : Z;
  winner : string;
  termination : string;
  ply_count : Z;
  opening_id : Z;
  rating_diff : Z
}.
End Game.

(** Modelled from the spec: the schema, which is not under [src/].
    [players(player_id PK, username UNIQUE, highest_rating)],
    [openings(opening_id PK, eco UNIQUE, name, family)] and
    [games(game_id PK, ...)].  Each table is the finite map from its unique
    column to the rest of the row.  The durable identifier of a new player
    or opening is the next value of the table's sequence, which every
    executed [INSERT] draws, also one that ends in a conflict. *)
Record db : Type := {
  players : gmap string Player.row;
  players_seq : Z;
  openings : gmap string Opening.row;
  openings_seq : Z;
  games : gmap string Game.row
}.

Definition empty_db : db :=
  {| players := ∅; players_seq := 1; openings := ∅; openings_seq := 1;
     games := ∅ |}.

(** ** The Loader: [src/etl/load.py] *)

(** [INSERT INTO players ... ON CONFLICT(username) DO UPDATE SET
    highest_rating = GREATEST(players.highest_rating,
    EXCLUDED.highest_rating) RETURNING player_id]. *)
Definition upsert_player (cur : db) (username : string) (rating : Z)
  : db * Z :=
  let fresh := players_seq cur in
  let stored :=
    match players cur !! username with
    | None =>
        {| Player.player_id := fresh; Player.highest_rating := rating |}
    | Some old =>
        {| Player.player_id := Player.player_id old;
           Player.highest_rating := Z.max (Player.highest_rating old) rating |}
    end in
  ({| players := <[username := stored]> (players cur);
      players_seq := fresh + 1;
      openings := openings cur;
      openings_seq := openings_seq cur;
      games := games cur |},
   Player.player_id stored).

(** [name.split(":")[0] if ":" in name else name.split()[0]]. *)
Definition opening_family (name : string) : result string :=
  if PyStr.contains ":" name
  then PyStr.first (PyStr.split_sep ":" name)
  else PyStr.first (PyStr.split_ws name).

(** [INSERT INTO openings(eco, name, family) ... ON CONFLICT (eco) DO UPDATE
    SET name = EXCLUDED.name RETURNING opening_id]. *)
Definition upsert_opening (cur : db) (eco name : string) : result (db * Z) :=
  family ← opening_family name;
  let fresh := openings_seq cur in
  let stored :=
    match openings cur !! eco with
    | None =>
        {| Opening.opening_id := fresh; Opening.name := name;
           Opening.family := family |}
    | Some old =>
        {| Opening.opening_id := Opening.opening_id old;
           Opening.name := name;
           Opening.family := Opening.family old |}
    end in
  Ok ({| players := players cur;
         players_seq := players_seq cur;
         openings := <[eco := stored]> (openings cur);
         openings_seq := fresh + 1;
         games := games cur |},
      Opening.opening_id stored).

(** [INSERT INTO games(...) ... ON CONFLICT (game_id) DO NOTHING]. *)
Definition insert_game (cur : db) (game_dict : Game.row) : db :=
  match games cur !! Game.game_id game_dict with
  | Some _ => cur
  | None =>
      {| players := players cur;
         players_seq := players_seq cur;
         openings := openings cur;
         openings_seq := openings_seq cur;
         games := <[Game.game_id game_dict := game_dict]> (games cur) |}
  end.

(** What [chess.pgn.read_game] hands to the loop: the headers of one game
    and [game.end().ply()]. *)
Record pgn_game : Type := { headers : gmap string string; end_ply : Z }.

(** [headers.get(key, default)] with a text default. *)
Definition get (h : gmap string string) (key dflt : string) : string :=
  default dflt (h !! key).

(** [int(headers.get(key, 0))]: [int(0)] is [0]. *)
Definition get_int (h : gmap string string) (key : string) : result Z :=
  match h !! key with
  | Some text => PyStr.int text
  | None => Ok 0
  end.

(** [headers.get("Result", "*").replace("1-0", "white")
    .replace("0-1", "black").replace("1/2-1/2", "draw")]. *)
Definition map_result (res : string) : string :=
  PyStr.replace "1/2-1/2" "draw"
    (PyStr.replace "0-1" "black" (PyStr.replace "1-0" "white" res)).

(** The [game_dict] built from the headers once the identifiers are known. *)
Definition build_game_dict (game : pgn_game)
    (white_id black_id white_rating black_rating opening_id : Z)
  : result Game.row :=
  let h := headers game in
  game_id ← PyStr.last (PyStr.split_sep "/" (get h "Site" ""));
  Ok {| Game.game_id := game_id;
        Game.played_at :=
          get h "UTCDate" "1970.01.01" ++ " " ++ get h "UTCTime" "00:00:00";
        Game.white_id := white_id;
        Game.black_id := black_id;
        Game.white_rating := white_rating;
        Game.black_rating := black_rating;
        Game.winner := map_result (get h "Result" "*");
        Game.termination := get h "Termination" "?";
        Game.ply_count := end_ply game;
        Game.opening_id := opening_id;
        Game.rating_diff := Z.abs (white_rating - black_rating) |}.

(** The body of the [while] loop of [process_pgn] for one game. *)
Definition process_game (cur : db) (game : pgn_game) : result (db * Game.row) :=
  let h := headers game in
  let eco := get h "ECO" "?" in
  let opening_name := get h "Opening" "Unknown" in
  '(cur, opening_id) ← upsert_opening cur eco opening_name;
  let white_username := get h "White" "?" in
  let black_username := get h "Black" "?" in
  white_rating ← get_int h "WhiteElo";
  black_rating ← get_int h "BlackElo";
  let '(cur, white_id) := upsert_player cur white_username white_rating in
  let '(cur, black_id) := upsert_player cur black_username black_rating in
  game_dict ←
    build_game_dict game white_id black_id white_rating black_rating
      opening_id;
  Ok (insert_game cur game_dict, game_dict).

(** What the Loader prints. *)
Inductive progress : Type :=
  | Inserted (game_ct : Z)
  | Finished (game_ct : Z).

(** The loop of [process_pgn] over the games the parser yields, until it
    yields [None]. *)
Fixpoint process_games (cur : db) (game_ct : Z) (games : list pgn_game)
  : result (db * Z * list progress) :=
  match games with
  | [] => Ok (cur, game_ct, [])
  | game :: rest =>
      '(cur, _) ← process_game cur game;
      let game_ct := game_ct + 1 in
      let out := if game_ct mod 1000 =? 0 then [Inserted game_ct] else [] in
      '(cur, total, outs) ← process_games cur game_ct rest;
      Ok (cur, total, (out ++ outs)%list)
  end.

Definition process_pgn (cur : db) (games : list pgn_game)
  : result (db * list progress) :=
  '(cur, game_ct, outs) ← process_games cur 0 games;
  Ok (cur, (outs ++ [Finished game_ct])%list).

(** ** The Collector: [src/etl/collector.py] *)

Definition BATCH_SIZE : Z := 300.

(** [int(datetime(2020, 1, 1, tzinfo=timezone.utc).timestamp() * 1000)]. *)
Definition SINCE_MS : Z := 1577836800000.

(** The keyword arguments of [client.games.export_by_user]. *)
Record request : Type := {
  username : string;
  max : Z;
  rated : bool;
  perf_type : string;
  with_openings : bool;
  moves : bool;
  tags : bool;
  since : Z
}.

Definition request_for (user : string) : request :=
  {| username := user; max := BATCH_SIZE; rated := true;
     perf_type := "blitz,rapid"; with_openings := true; moves := false;
     tags := true; since := SINCE_MS |}.

(** What the remote source answers to one request: the call raises, or it
    returns a stream; iterating the stream yields its lines and then ends,
    or raises in its turn.  The input names are unique, so one answer per
    request describes the source during a run. *)
Record stream : Type := { lines : list string; broken : option exn }.

Definition client : Type := request -> result stream.

(** What the Collector prints. *)
Inductive message : Type :=
  | Downloading (user : string)
  | ApiError (user : string)
  | Saved.

(** The text ["\n"]. *)
Definition newline : string := String "010"%char EmptyString.

(** [for pgn_line in stream: f_out.write(pgn_line + "\n")]. *)
Fixpoint write_lines (f_out : string) (pgn_lines : list string) : string :=
  match pgn_lines with
  | [] => f_out
  | pgn_line :: rest => write_lines (f_out ++ (pgn_line ++ newline)) rest
  end.

(** The [for username in usernames] loop: the text written so far, what was
    printed, and the exception that left the loop, if one did.  Only
    [ResponseError] raised by the call itself is inside the [try]. *)
Fixpoint export_loop (api : client) (f_out : string) (usernames : list string)
  : string * list message * option exn :=
  match usernames with
  | [] => (f_out, [], None)
  | user :: rest =>
      match api (request_for user) with
      | Raise ResponseError =>
          let '(f_end, out, exc) := export_loop api f_out rest in
          (f_end, Downloading user :: ApiError user :: out, exc)
      | Raise e => (f_out, [Downloading user], Some e)
      | Ok s =>
          let f_out := write_lines f_out (lines s) in
          match broken s with
          | Some e => (f_out, [Downloading user], Some e)
          | None =>
              let '(f_end, out, exc) := export_loop api f_out rest in
              (f_end, Downloading user :: out, exc)
          end
      end
  end.

(** The outcome of a run: the content of [out_path] afterwards ([None]: no
    such file), the printed messages and the exception that ended the run. *)
Record run : Type := {
  file : option string;
  printed : list message;
  raised : option exn
}.

(** [export_games(usernames, out_path)], given the value of
    [LICHESS_API_TOKEN] and the content of [out_path] before the run.
    [open("w")] creates the file or empties it. *)
Definition export_games (token : option string) (api : client)
    (usernames : list string) (before : option string) : run :=
  match token with
  | None | Some EmptyString =>
      {| file := before; printed := []; raised := Some RuntimeError |}
  | Some (String _ _) =>
      let '(f_end, out, exc) := export_loop api EmptyString usernames in
      {| file := Some f_end;
         printed :=
           match exc with
           | None => (out ++ [Saved])%list
           | Some _ => out
           end;
         raised := exc |}
  end.

(** The users whose download was begun, in order. *)
Fixpoint attempted (out : list message) : list string :=
  match out with
  | [] => []
  | Downloading user :: rest => user :: attempted rest
  | _ :: rest => attempted rest
  end.

(** The users whose failure was reported, in order. *)
Fixpoint reported (out : list message) : list string :=
  match out with
  | [] => []
  | ApiError user :: rest => user :: reported rest
  | _ :: rest => reported rest
  end.

(** ** The family of an opening, in the words of the specification *)

(** The substring of [s] before the first [c]. *)
Fixpoint before (c : ascii) (s : string) : string :=
  match s with
  | EmptyString => EmptyString
  | String a s' => if Ascii.eqb a c then EmptyString else String a (before c s')
  end.

(** The text made of the characters [cs]. *)
Fixpoint join (cs : list string) : string :=
  match cs with
  | [] => EmptyString
  | c :: cs' => c ++ join cs'
  end.

(** The characters of a text up to its first whitespace character. *)
Fixpoint token (cs : list string) : string :=
  match cs with
  | [] => EmptyString
  | c :: cs' => if PyStr.is_space c then EmptyString else c ++ token cs'
  end.

(** The first whitespace-delimited token of [s], when it has one. *)
Definition first_token (s : string) : option string :=
  match PyStr.lstrip PyStr.is_space (PyStr.chars s) with
  | [] => None
  | c :: cs => Some (token (c :: cs))
  end.

Definition family_spec (name : string) : option string :=
  if PyStr.contains ":" name then Some (before ":" name) else first_token name.

(** [old] occurs in [s]. *)
Fixpoint occurs (old s : string) : bool :=
  PyStr.startswith old s ||
  match s with
  | EmptyString => false
  | String _ s' => occurs old s'
  end.

(** The lines a run receives from the source, in order, up to the exception
    that ends the run. *)
Fixpoint received (api : client) (usernames : list string) : list string :=
  match usernames with
  | [] => []
  | user :: rest =>
      match api (request_for user) with
      | Raise ResponseError => received api rest
      | Raise _ => []
      | Ok s =>
          match broken s with
          | Some _ => lines s
          | None => (lines s ++ received api rest)%list
          end
      end
  end.

(** One record per line. *)
Fixpoint one_per_line (records : list string) : string :=
  match records with
  | [] => EmptyString
  | r :: rest => r ++ newline ++ one_per_line rest
  end.

(** A request the source answers with a stream that ends, or rejects with a
    [ResponseError]. *)
Definition answered (api : client) (user : string) : Prop :=
  match api (request_for user) with
  | Ok s => broken s = None
  | Raise e => e = ResponseError
  end.

(** The last segment of the [Site] header. *)
Definition game_key (game : pgn_game) : string :=
  List.last (PyStr.split_sep "/" (get (headers game) "Site" "")) "".

(** Games the statements below are tried on. *)
Definition game_of (hs : list (string * string)) : pgn_game :=
  {| headers := list_to_map hs; end_ply := 0 |}.

Definition najdorf_game : pgn_game :=
  game_of [("ECO", "B90"); ("Opening", "Sicilian Defense: Najdorf");
           ("White", "alice"); ("Black", "bob");
           ("WhiteElo", "2200"); ("BlackElo", "2100");
           ("Site", "https://lichess.org/AbCd1234"); ("Result", "1-0");
           ("UTCDate", "2021.03.04"); ("UTCTime", "10:11:12");
           ("Termination", "Normal")].

Definition no_black_elo_game : pgn_game :=
  game_of [("ECO", "A10"); ("Opening", "English Opening");
           ("White", "alice"); ("Black", "carol"); ("WhiteElo", "2200");
           ("Site", "https://lichess.org/EfGh5678"); ("Result", "0-1")].

Definition unrated_white_game : pgn_game :=
  game_of [("ECO", "A10"); ("Opening", "English Opening");
           ("White", "alice"); ("Black", "carol");
           ("WhiteElo", "?"); ("BlackElo", "1500");
           ("Site", "https://lichess.org/IjKl9012"); ("Result", "1/2-1/2")].

Definition forfeit_game : pgn_game :=
  game_of [("ECO", "A10"); ("Opening", "English Opening");
           ("White", "alice"); ("Black", "carol");
           ("WhiteElo", "1600"); ("BlackElo", "1500");
           ("Site", "https://lichess.org/MnOp3456");
           ("Result", "1-0 forfeit")].

Definition blank_opening_game : pgn_game :=
  game_of [("ECO", "A00"); ("Opening", "");
           ("White", "alice"); ("Black", "carol");
           ("WhiteElo", "1600"); ("BlackElo", "1500");
           ("Site", "https://lichess.org/QrSt7890"); ("Result", "1-0")].

(** The store after one opening was loaded. *)
Definition najdorf_db : db :=
  match upsert_opening empty_db "B90" "Sicilian Defense: Najdorf" with
  | Ok (cur, _) => cur
  | Raise _ => empty_db
  end.

(** The same player upserted twice, and a sequence of upserts. *)
Definition upsert_twice (cur : db) (username : string) (r1 r2 : Z) : db :=
  fst (upsert_player (fst (upsert_player cur username r1)) username r2).

Definition upsert_players (cur : db) (ups : list (string * Z)) : db :=
  foldl (fun d up => fst (upsert_player d (fst up) (snd up))) cur ups.

(** A record store in which a game is repeated. *)
Definition sample_store : list pgn_game :=
  [najdorf_game; no_black_elo_game; najdorf_game].

(** A source that knows alice and bob and rejects every other name. *)
Definition sample_api : client := fun req =>
  if String.eqb (username req) "alice"
  then Ok {| lines := ["[Site a1]"; "[Site a2]"]; broken := None |}
  else if String.eqb (username req) "bob"
  then Ok {| lines := ["[Site b1]"]; broken := None |}
  else Raise ResponseError.

(** ** Replacement, in the words of [str.replace]

    [replaced old new s t]: [t] is [s] with every occurrence of [old], found
    from the left and not overlapping an occurrence found before, replaced
    by [new]. *)
Inductive replaced (old new : string) : string -> string -> Prop :=
  | replaced_end : replaced old new "" ""
  | replaced_here (s rest rest' : string) :
      s = old ++ rest ->
      replaced old new rest rest' ->
      replaced old new s (new ++ rest')
  | replaced_next (a : ascii) (rest rest' : string) :
      PyStr.startswith old (String a rest) = false ->
      replaced old new rest rest' ->
      replaced old new (String a rest) (String a rest').

(** ** Texts with characters outside ASCII: U+00A0 (no-break space), U+0662
    (Arabic-Indic digit two) and U+2028 (line separator) in UTF-8. *)
Definition nbsp : string := String "194" (String "160" EmptyString).
Definition arabic_two : string := String "217" (String "162" EmptyString).
Definition line_separator : string :=
  String "226" (String "128" (String "168" EmptyString)).



(** ** The rest of [src/etl/collector.py] and of [src/etl/load.py] *)

Module PyList.

(** [range(0, stop, step)] for a [stop] that is not negative: multiples of
    [step] below [stop]; none for a negative [step]; [ValueError] for 0. *)
Definition range0 (stop step : Z) : result (list Z) :=
  if step =? 0 then Raise ValueError
  else if step <? 0 then Ok []
  else Ok (map (fun k => Z.of_nat k * step)
             (List.seq 0 (Z.to_nat ((stop + step - 1) / step)))).

(** [seq[i:j]] for [i] and [j] that are not negative. *)
Definition slice {A : Type} (seq : list A) (i j : Z) : list A :=
  take (Z.to_nat j - Z.to_nat i) (drop (Z.to_nat i) seq).

End PyList.

Module Collector.

(** [chunked(seq, n)]: what the generator yields, or the exception its first
    [next] raises. *)
Definition chunked {A : Type} (seq : list A) (n : Z) : result (list (list A)) :=
  starts ← PyList.range0 (Z.of_nat (List.length seq)) n;
  Ok (map (fun i => PyList.slice seq i (i + n)) starts).

(** The line boundaries of [str.splitlines]: LF, VT, FF, CR, FS, GS, RS,
    U+0085, U+2028 and U+2029. *)
Definition is_linebreak (c : string) : bool :=
  match PyStr.code c with
  | Some cp =>
      ((10 <=? cp) && (cp <=? 13)) || ((28 <=? cp) && (cp <=? 30))
      || (cp =? 133) || (cp =? 8232) || (cp =? 8233)
  | None => false
  end.

(** [s.splitlines()] on the characters of [s]: CR LF is one boundary, and
    a boundary at the end of the text opens no further line. *)
Fixpoint lines_of_chars (cs : list string) : list string :=
  match cs with
  | [] => []
  | c :: cs' =>
      if is_linebreak c
      then EmptyString ::
           match cs' with
           | d :: cs'' =>
               if String.eqb c (String "013" EmptyString)
                  && String.eqb d (String "010" EmptyString)
               then lines_of_chars cs'' else lines_of_chars cs'
           | [] => lines_of_chars cs'
           end
      else match lines_of_chars cs' with
           | h :: t => (c ++ h) :: t
           | [] => [c]
           end
  end.

Definition splitlines (s : string) : list string :=
  lines_of_chars (PyStr.chars s).

(** [main], given the text [read_text] returns for the file [user_list]:
    [usernames = Path(args.user_list).read_text().splitlines()] and then
    [export_games(usernames, Path(args.output_pgn))]. *)
Definition main (token : option string) (api : client) (user_list : string)
    (before : option string) : run :=
  export_games token api (splitlines user_list) before.

End Collector.

(** A request whose answer lets the loop go on: see [answered]; one that
    ends the run with the exception [e]. *)
Definition aborts (api : client) (user : string) (e : exn) : Prop :=
  match api (request_for user) with
  | Ok s => broken s = Some e
  | Raise e' => e' = e /\ e <> ResponseError
  end.

(** The lines of the users [api] hands out in full. *)
Definition lines_of (api : client) (user : string) : list string :=
  match api (request_for user) with
  | Ok s => lines s
  | Raise _ => []
  end.

(** A record the Loader can process: the family of its opening name is
    defined and both ratings are absent or integer literals. *)
Definition loadable (game : pgn_game) : Prop :=
  (exists f, opening_family (get (headers game) "Opening" "Unknown") = Ok f)
  /\ (exists wr, get_int (headers game) "WhiteElo" = Ok wr)
  /\ (exists br, get_int (headers game) "BlackElo" = Ok br).

(** The exception a record that is not loadable raises: the family is
    derived before the ratings are read. *)
Definition failure (game : pgn_game) : option exn :=
  match opening_family (get (headers game) "Opening" "Unknown") with
  | Raise e => Some e
  | Ok _ =>
      match get_int (headers game) "WhiteElo" with
      | Raise e => Some e
      | Ok _ =>
          match get_int (headers game) "BlackElo" with
          | Raise e => Some e
          | Ok _ => None
          end
      end
  end.

(** The first exception in a record store. *)
Fixpoint first_failure (store : list pgn_game) : option exn :=
  match store with
  | [] => None
  | game :: rest =>
      match failure game with
      | Some e => Some e
      | None => first_failure rest
      end
  end.

(** The progress lines of a load of [n] records that started with the
    counter at [game_ct]. *)
Fixpoint thousands (game_ct : Z) (n : nat) : list progress :=
  match n with
  | O => []
  | S n' =>
      ((if (game_ct + 1) mod 1000 =? 0 then [Inserted (game_ct + 1)] else [])
       ++ thousands (game_ct + 1) n')%list
  end.

(** Some stored player, some stored opening, has this identifier. *)
Definition has_player_id (cur : db) (id : Z) : Prop :=
  exists user p, players cur !! user = Some p /\ Player.player_id p = id.

Definition has_opening_id (cur : db) (id : Z) : Prop :=
  exists eco o, openings cur !! eco = Some o /\ Opening.opening_id o = id.

(** Every game row is stored under its own [game_id] and its three foreign
    keys are identifiers of stored rows. *)
Definition references_resolve (cur : db) : Prop :=
  forall key g, games cur !! key = Some g ->
    Game.game_id g = key
    /\ has_player_id cur (Game.white_id g)
    /\ has_player_id cur (Game.black_id g)
    /\ has_opening_id cur (Game.opening_id g).

(** The text of [s] after its last [c]; all of [s] when it has none. *)
Fixpoint after_last (c : ascii) (s : string) : string :=
  match s with
  | EmptyString => EmptyString
  | String a s' =>
      if PyStr.contains c s' then after_last c s'
      else if Ascii.eqb a c then s' else s
  end.

(** What a load leaves of the rows that were there before it: a game row
    as it was; a player with its identifier and a rating that is not lower;
    an opening with its identifier and its family. *)
Definition keeps_rows (cur cur' : db) : Prop :=
  (forall key g, games cur !! key = Some g -> games cur' !! key = Some g)
  /\ (forall user p, players cur !! user = Some p ->
        exists p', players cur' !! user = Some p'
          /\ Player.player_id p' = Player.player_id p
          /\ Player.highest_rating p <= Player.highest_rating p')
  /\ (forall eco o, openings cur !! eco = Some o ->
        exists o', openings cur' !! eco = Some o'
          /\ Opening.opening_id o' = Opening.opening_id o
          /\ Opening.family o' = Opening.family o).

(** A source that answers like [sample_api] to the requests that carry the
    filters of [request_for], and to no other. *)
Definition strict_api : client := fun req =>
  if (max req =? BATCH_SIZE) && rated req
     && String.eqb (perf_type req) "blitz,rapid"
     && with_openings req && negb (moves req) && tags req
     && (since req =? SINCE_MS)
  then sample_api req
  else Raise OtherError.

(** A source whose stream for bob breaks after one line. *)
Definition breaking_api : client := fun req =>
  if String.eqb (username req) "bob"
  then Ok {| lines := ["[Site b1]"]; broken := Some OtherError |}
  else sample_api req.

(** A thousand copies of one record. *)
Definition thousand_store : list pgn_game := replicate 1000 najdorf_game.

(** The keys a record names: its players and its opening code. *)
Definition white_of (game : pgn_game) : string := get (headers game) "White" "?".
Definition black_of (game : pgn_game) : string := get (headers game) "Black" "?".
Definition eco_of (game : pgn_game) : string := get (headers game) "ECO" "?".

(** A record with the [game_id] of [najdorf_game] and another result, and
    a store in which it follows that game. *)
Definition najdorf_rematch : pgn_game :=
  game_of [("ECO", "B90"); ("Opening", "Sicilian Defense: Najdorf");
           ("White", "alice"); ("Black", "bob");
           ("WhiteElo", "2300"); ("BlackElo", "2100");
           ("Site", "https://lichess.org/AbCd1234"); ("Result", "0-1")].

Definition rematch_store : list pgn_game :=
  [no_black_elo_game; najdorf_game; najdorf_rematch].

(** A name that holds no line boundary. *)
Definition no_linebreak (name : string) : bool :=
  forallb (fun c => negb (Collector.is_linebreak c)) (PyStr.chars name).

(** The opening name of a record, and a record that names the opening of
    [najdorf_game] otherwise. *)
Definition opening_name_of (game : pgn_game) : string :=
  get (headers game) "Opening" "Unknown".

Definition najdorf_renamed : pgn_game :=
  game_of [("ECO", "B90"); ("Opening", "Najdorf Variation");
           ("White", "carol"); ("Black", "dave");
           ("Site", "https://lichess.org/UvWx2468"); ("Result", "1/2-1/2")].

Definition renamed_store : list pgn_game :=
  [najdorf_game; no_black_elo_game; najdorf_renamed].

(** * Properties *)

(** ** The embedding at work *)

Example split_sep_ex : PyStr.split_sep ":" "a:b::c" = ["a"; "b"; ""; "c"].
Proof. reflexivity. Qed.

Example split_ws_ex : PyStr.split_ws "  ab  c d " = ["ab"; "c"; "d"].
Proof. reflexivity. Qed.

Example replace_ex : PyStr.replace "aa" "b" "aaaxaa" = "baxb".
Proof. reflexivity. Qed.

Example int_ex :
  PyStr.int " -1_000 " = Ok (-1000) /\ PyStr.int "1__0" = Raise ValueError
  /\ PyStr.int "2200" = Ok 2200 /\ PyStr.int "?" = Raise ValueError
  /\ PyStr.int "" = Raise ValueError /\ PyStr.int "- 5" = Raise ValueError.
Proof. repeat split; reflexivity. Qed.

Example split_ws_nbsp :
  PyStr.split_ws ("Ruy" ++ nbsp ++ "Lopez Opening") = ["Ruy"; "Lopez"; "Opening"]
  /\ PyStr.split_ws nbsp = [].
Proof. split; vm_compute; reflexivity. Qed.

Example int_arabic :
  PyStr.int (arabic_two ++ arabic_two) = Ok 22
  /\ PyStr.int (nbsp ++ "1" ++ arabic_two ++ " ") = Ok 12
  /\ PyStr.int ("1" ++ nbsp ++ "2") = Raise ValueError.
Proof. repeat split; vm_compute; reflexivity. Qed.

Example splitlines_line_separator :
  Collector.splitlines ("alice" ++ line_separator ++ "bob") = ["alice"; "bob"].
Proof. vm_compute. reflexivity. Qed.

Example map_result_chained :
  map_result "0-1-0" = "0-white" /\ map_result "1-0-1" = "white-1".
Proof. split; vm_compute; reflexivity. Qed.

(** ** Strings *)

Lemma append_nil (s : string) : "" ++ s = s.
Proof. reflexivity. Qed.

Lemma append_cons (a : ascii) (s t : string) :
  String a s ++ t = String a (s ++ t).
Proof. reflexivity. Qed.

Ltac unfold_append := rewrite ?append_nil, ?append_cons in *.

Lemma append_assoc (a b c : string) : (a ++ b) ++ c = a ++ (b ++ c).
Proof.
  induction a as [|x a IH]; unfold_append; [reflexivity | by rewrite IH].
Qed.

Lemma append_empty_r (a : string) : a ++ "" = a.
Proof.
  induction a as [|x a IH]; unfold_append; [reflexivity | by rewrite IH].
Qed.

Lemma split_sep_first (c : ascii) (s : string) :
  PyStr.first (PyStr.split_sep c s) = Ok (before c s).
Proof.
  induction s as [|a s IH]; simpl; [reflexivity|].
  destruct (Ascii.eqb a c); [reflexivity|].
  destruct (PyStr.split_sep c s) as [|h t]; simpl in *; [discriminate|].
  by inversion IH.
Qed.

Lemma split_sep_cons (c : ascii) (s : string) :
  exists h t, PyStr.split_sep c s = h :: t.
Proof.
  destruct s as [|a s]; simpl; [by eexists _, _|].
  destruct (Ascii.eqb a c); [by eexists _, _|].
  destruct (PyStr.split_sep c s); by eexists _, _.
Qed.

Lemma before_spec (c : ascii) (s : string) :
  PyStr.contains c s = true ->
  exists rest, s = before c s ++ String c rest
               /\ PyStr.contains c (before c s) = false.
Proof.
  induction s as [|a s IH]; simpl; [discriminate|].
  destruct (Ascii.eqb a c) eqn:E.
  - intros _. apply Ascii.eqb_eq in E as ->. by exists s.
  - intros H. destruct (IH H) as (rest & Hs & Hn).
    exists rest. simpl. rewrite E. unfold_append.
    split; [by rewrite <- Hs | done].
Qed.

Lemma chars_nonnil (a : ascii) (s : string) : PyStr.chars (String a s) <> [].
Proof.
  cbn [PyStr.chars].
  destruct (PyStr.chars s); [done|]. by destruct (PyStr.continued a s).
Qed.

Lemma chars_nonempty (s : string) :
  Forall (fun c => c <> "") (PyStr.chars s).
Proof.
  induction s as [|a s IH]; [constructor|].
  cbn [PyStr.chars]. destruct (PyStr.chars s) as [|h t].
  - by repeat constructor.
  - inversion IH as [|? ? Hh Ht]; subst.
    destruct (PyStr.continued a s); by repeat constructor.
Qed.

Lemma join_chars (s : string) : join (PyStr.chars s) = s.
Proof.
  induction s as [|a s IH]; [reflexivity|].
  cbn [PyStr.chars]. destruct (PyStr.chars s) as [|h t].
  - cbn [join] in *. unfold_append. by rewrite <- IH.
  - destruct (PyStr.continued a s); cbn [join] in *; unfold_append;
      by rewrite IH.
Qed.

Lemma join_app (a b : list string) : join (a ++ b)%list = join a ++ join b.
Proof.
  induction a as [|c a IH]; cbn [join app]; [by unfold_append|].
  by rewrite IH, append_assoc.
Qed.

Lemma chars_ascii (a : ascii) (s : string) :
  PyStr.byte a < 128 ->
  PyStr.chars (String a s) = String a "" :: PyStr.chars s.
Proof.
  intros Ha. cbn [PyStr.chars].
  assert (Hc : PyStr.continued a s = false).
  { destruct s as [|b s]; [done|]. cbn. unfold PyStr.continues.
    destruct (Z.leb_spec 128 (PyStr.byte a)); [lia | done]. }
  rewrite Hc. by destruct (PyStr.chars s).
Qed.

Lemma chars_app_ascii (x : string) (a : ascii) (r : string) :
  PyStr.byte a < 128 ->
  PyStr.chars (x ++ String a r)
  = (PyStr.chars x ++ String a "" :: PyStr.chars r)%list.
Proof.
  intros Ha. induction x as [|b x IH]; unfold_append.
  - by apply chars_ascii.
  - cbn [PyStr.chars]. rewrite IH. destruct x as [|c x].
    + unfold_append. cbn [PyStr.chars app PyStr.continued].
      unfold PyStr.continues, PyStr.is_cont.
      destruct (Z.leb_spec 128 (PyStr.byte a)); [lia|].
      by rewrite andb_false_r.
    + unfold_append. cbn [PyStr.continued].
      pose proof (chars_nonnil c x) as Hne.
      destruct (PyStr.chars (String c x)) as [|h t]; [done|].
      cbn [app]. by destruct (PyStr.continues b c).
Qed.

Lemma is_space_ascii (a : ascii) :
  PyStr.is_space (String a "") = PyStr.isspace a.
Proof. by destruct a as [[] [] [] [] [] [] [] []]. Qed.

Lemma isspace_byte (a : ascii) : PyStr.isspace a = true -> PyStr.byte a < 128.
Proof. by destruct a as [[] [] [] [] [] [] [] []]. Qed.

Lemma tokens_first (cs : list string) :
  PyStr.first (PyStr.tokens cs)
  = match PyStr.lstrip PyStr.is_space cs with
    | [] => Raise IndexError
    | c :: cs' => Ok (token (c :: cs'))
    end.
Proof.
  induction cs as [|c cs IH]; [reflexivity|].
  cbn [PyStr.tokens PyStr.lstrip].
  destruct (PyStr.is_space c) eqn:Ec; [exact IH|].
  cbn [token]. rewrite Ec.
  destruct cs as [|d cs]; [cbn; by rewrite append_empty_r|].
  destruct (PyStr.is_space d) eqn:Ed.
  - cbn [token]. rewrite Ed. cbn. by rewrite append_empty_r.
  - revert IH. cbn [PyStr.lstrip]. rewrite Ed.
    destruct (PyStr.tokens (d :: cs)) as [|h t]; simpl; [discriminate|].
    intros IH. by inversion IH.
Qed.

Lemma split_ws_first (s : string) :
  PyStr.first (PyStr.split_ws s)
  = match first_token s with
    | Some t => Ok t
    | None => Raise IndexError
    end.
Proof.
  unfold first_token, PyStr.split_ws. rewrite tokens_first.
  by destruct (PyStr.lstrip PyStr.is_space (PyStr.chars s)).
Qed.

Lemma token_spec (cs : list string) :
  exists word rest, cs = (word ++ rest)%list
    /\ token cs = join word
    /\ forallb (fun c => negb (PyStr.is_space c)) word = true
    /\ (rest = [] \/ exists c r, rest = c :: r /\ PyStr.is_space c = true).
Proof.
  induction cs as [|c cs (word & rest & Hs & Ht & Hall & Hrest)];
    cbn [token].
  - exists [], []. by auto.
  - destruct (PyStr.is_space c) eqn:Ec.
    + exists [], (c :: cs). split; [done|]. split; [done|]. split; [done|].
      right. by exists c, cs.
    + exists (c :: word), rest. cbn [join forallb app]. rewrite Ec, Ht, Hs.
      by repeat split.
Qed.

Lemma first_token_spec (s t : string) :
  first_token s = Some t ->
  exists pre word rest,
    PyStr.chars s = (pre ++ word ++ rest)%list
    /\ t = join word
    /\ s = join pre ++ t ++ join rest
    /\ forallb PyStr.is_space pre = true
    /\ t <> ""
    /\ forallb (fun c => negb (PyStr.is_space c)) word = true
    /\ (rest = [] \/ exists c r, rest = c :: r /\ PyStr.is_space c = true).
Proof.
  unfold first_token. intros Ht.
  assert (Hcs : exists pre word rest,
             PyStr.chars s = (pre ++ word ++ rest)%list
             /\ t = join word
             /\ forallb PyStr.is_space pre = true
             /\ (exists c w, word = c :: w)
             /\ forallb (fun c => negb (PyStr.is_space c)) word = true
             /\ (rest = []
                 \/ exists c r, rest = c :: r /\ PyStr.is_space c = true)).
  { revert Ht. generalize (PyStr.chars s) as cs.
    induction cs as [|c cs IH]; [discriminate|].
    cbn [PyStr.lstrip]. destruct (PyStr.is_space c) eqn:Ec.
    - intros H. destruct (IH H) as (pre & word & rest & Hs & Hrest).
      exists (c :: pre), word, rest. cbn [app forallb]. rewrite Ec, Hs.
      by split.
    - intros [= <-].
      destruct (token_spec (c :: cs)) as (word & rest & Hs & Htok & Hall & Hr).
      exists [], word, rest. cbn [app]. split; [done|]. split; [done|].
      split; [done|]. split; [|by split].
      destruct word as [|c' w]; [|by eexists _, _].
      cbn [app] in Hs. subst rest.
      destruct Hr as [[=]|(c' & r & [= <- <-] & Hsp)]. congruence. }
  destruct Hcs as (pre & word & rest & Hs & -> & Hpre & (c & w & ->) & Hall & Hr).
  exists pre, (c :: w), rest. split; [done|]. split; [done|].
  split; [|split; [done|split; [|by split]]].
  - by rewrite <- (join_chars s), Hs, !join_app.
  - pose proof (chars_nonempty s) as Hne. rewrite Hs in Hne.
    apply Forall_app in Hne as (_ & Hne).
    apply Forall_app in Hne as (Hne & _).
    inversion Hne as [|? ? Hc _]; subst. cbn [join].
    destruct c; [done|]. by unfold_append.
Qed.

Lemma first_token_none (s : string) :
  first_token s = None <-> forallb PyStr.is_space (PyStr.chars s) = true.
Proof.
  unfold first_token. generalize (PyStr.chars s) as cs.
  induction cs as [|c cs IH]; [done|].
  cbn [PyStr.lstrip forallb]. destruct (PyStr.is_space c); simpl; [done|].
  split; discriminate.
Qed.

Lemma blank_split_ws (s : string) :
  PyStr.all_chars PyStr.isspace s = true -> PyStr.split_ws s = [].
Proof.
  unfold PyStr.split_ws. induction s as [|a s IH]; [reflexivity|].
  cbn [PyStr.all_chars]. intros [Ha Hs]%andb_prop.
  rewrite (chars_ascii a s (isspace_byte a Ha)). cbn [PyStr.tokens].
  rewrite is_space_ascii, Ha. by apply IH.
Qed.

Lemma isspace_no_colon (s : string) :
  PyStr.all_chars PyStr.isspace s = true -> PyStr.contains ":" s = false.
Proof.
  induction s as [|a s IH]; simpl; [done|].
  intros [Ha Hs]%andb_prop. rewrite (IH Hs).
  destruct (Ascii.eqb a ":") eqn:E; [|done].
  apply Ascii.eqb_eq in E as ->. discriminate.
Qed.

(** ** The Loader, one game *)

Lemma last_ok {A : Type} (l : list A) (d : A) :
  l <> [] -> PyStr.last l = Ok (List.last l d).
Proof.
  destruct l as [|x l _] using rev_ind; [done|]. intros _.
  unfold PyStr.last. by rewrite rev_unit, last_last.
Qed.

Lemma build_game_dict_ok (game : pgn_game) (wid bid wr br oid : Z) :
  exists g, build_game_dict game wid bid wr br oid = Ok g
    /\ Game.game_id g = game_key game
    /\ Game.white_rating g = wr /\ Game.black_rating g = br
    /\ Game.rating_diff g = Z.abs (wr - br)
    /\ Game.winner g = map_result (get (headers game) "Result" "*").
Proof.
  unfold build_game_dict, game_key.
  destruct (split_sep_cons "/" (get (headers game) "Site" ""))
    as (h & t & E).
  rewrite (last_ok _ "") by (rewrite E; discriminate).
  eexists. split; [reflexivity|]. by repeat split.
Qed.

Lemma process_game_ok (cur : db) (game : pgn_game) (f : string) (wr br : Z) :
  opening_family (get (headers game) "Opening" "Unknown") = Ok f ->
  get_int (headers game) "WhiteElo" = Ok wr ->
  get_int (headers game) "BlackElo" = Ok br ->
  exists cur' g, process_game cur game = Ok (cur', g)
    /\ Game.game_id g = game_key game
    /\ Game.white_rating g = wr /\ Game.black_rating g = br
    /\ Game.rating_diff g = Z.abs (wr - br)
    /\ Game.winner g = map_result (get (headers game) "Result" "*")
    /\ games cur' = match games cur !! game_key game with
                    | Some _ => games cur
                    | None => <[game_key game := g]> (games cur)
                    end.
Proof.
  intros Hf Hw Hb. unfold process_game, upsert_opening.
  rewrite Hf. cbn [mbind result_bind]. rewrite Hw, Hb.
  cbn [mbind result_bind upsert_player].
  match goal with
  | |- context [build_game_dict game ?wid ?bid wr br ?oid] =>
      destruct (build_game_dict_ok game wid bid wr br oid)
        as (g & -> & Hk & Hwr & Hbr & Hd & Hres)
  end.
  cbn [mbind result_bind]. eexists _, g. split; [reflexivity|].
  repeat (split; [assumption|]).
  unfold insert_game. cbn [games]. rewrite Hk.
  by destruct (games cur !! game_key game).
Qed.

Lemma process_game_inv (cur : db) (game : pgn_game) (cur' : db) (g : Game.row) :
  process_game cur game = Ok (cur', g) ->
  exists f wr br,
    opening_family (get (headers game) "Opening" "Unknown") = Ok f
    /\ get_int (headers game) "WhiteElo" = Ok wr
    /\ get_int (headers game) "BlackElo" = Ok br.
Proof.
  unfold process_game, upsert_opening.
  destruct (opening_family _) as [f|]; [|discriminate].
  cbn [mbind result_bind].
  destruct (get_int _ "WhiteElo") as [wr|]; [|discriminate].
  destruct (get_int _ "BlackElo") as [br|]; [|discriminate].
  intros _. by exists f, wr, br.
Qed.

Lemma get_present (h : gmap string string) (key dflt text : string) :
  h !! key = Some text -> get h key dflt = text.
Proof. unfold get. by intros ->. Qed.

Lemma get_absent (h : gmap string string) (key dflt : string) :
  h !! key = None -> get h key dflt = dflt.
Proof. unfold get. by intros ->. Qed.

Lemma int_raises (text : string) (e : exn) :
  PyStr.int text = Raise e -> e = ValueError.
Proof.
  unfold PyStr.int.
  by repeat case_match; intros [=].
Qed.

(** *** The family of an opening *)

(** C6: the family of an opening name is the text before its first colon
    when it has a colon, and its first whitespace-delimited token
    otherwise, where whitespace is that of [str.split()], in and outside
    ASCII (with no token, as for a name of whitespace only, the derivation
    raises [IndexError]); the two names of the specification yield
    "Sicilian Defense" and "English", and the family is what a first insert
    stores. *)
Theorem opening_family_derivation (name : string) :
  opening_family name
  = match family_spec name with
    | Some f => Ok f
    | None => Raise IndexError
    end
  /\ (forall f, opening_family name = Ok f ->
        if PyStr.contains ":" name
        then exists rest, name = f ++ ":" ++ rest
                          /\ PyStr.contains ":" f = false
        else exists pre word rest,
               PyStr.chars name = (pre ++ word ++ rest)%list
               /\ f = join word
               /\ name = join pre ++ f ++ join rest
               /\ forallb PyStr.is_space pre = true
               /\ f <> ""
               /\ forallb (fun c => negb (PyStr.is_space c)) word = true
               /\ (rest = []
                   \/ exists c r, rest = c :: r /\ PyStr.is_space c = true))
  /\ (forall cur eco f, opening_family name = Ok f ->
        openings cur !! eco = None ->
        exists cur' id, upsert_opening cur eco name = Ok (cur', id)
          /\ Opening.family <$> openings cur' !! eco = Some f)
  /\ opening_family "Sicilian Defense: Najdorf" = Ok "Sicilian Defense"
  /\ opening_family "English Opening" = Ok "English"
  /\ (PyStr.contains ":" name = false ->
      forallb PyStr.is_space (PyStr.chars name) = true ->
      opening_family name = Raise IndexError)
  /\ opening_family nbsp = Raise IndexError
  /\ opening_family ("Ruy" ++ nbsp ++ "Lopez") = Ok "Ruy".
Proof.
  assert (Heq : opening_family name
                = match family_spec name with
                  | Some f => Ok f
                  | None => Raise IndexError
                  end).
  { unfold opening_family, family_spec.
    destruct (PyStr.contains ":" name).
    - apply split_sep_first.
    - apply split_ws_first. }
  split; [exact Heq|].
  split; [|split; [|split; [reflexivity|split; [reflexivity|split;
    [|split; vm_compute; reflexivity]]]]].
  - intros f Hf. rewrite Heq in Hf. unfold family_spec in Hf.
    destruct (PyStr.contains ":" name) eqn:Hc.
    + injection Hf as <-.
      destruct (before_spec ":" name Hc) as (rest & Hn & Hb). by exists rest.
    + destruct (first_token name) as [t|] eqn:Ht; [|discriminate].
      injection Hf as <-. by apply first_token_spec.
  - intros cur eco f Hf Hnone. unfold upsert_opening.
    rewrite Hf, Hnone. cbn [mbind result_bind].
    eexists _, _. split; [reflexivity|].
    cbn [openings]. by rewrite lookup_insert_eq.
  - intros Hcolon Hblank. rewrite Heq. unfold family_spec.
    rewrite Hcolon. apply first_token_none in Hblank. by rewrite Hblank.
Qed.

(** C10: a record whose [Opening] header is present and is empty or all
    whitespace (so that the default "Unknown" does not apply) makes the
    family derivation take the first element of an empty list: the record's
    processing, and the load, end in [IndexError]. *)
Theorem blank_opening_name_fails
    (cur : db) (game : pgn_game) (rest : list pgn_game) (name : string) :
  headers game !! "Opening" = Some name ->
  PyStr.all_chars PyStr.isspace name = true ->
  PyStr.split_ws name = []
  /\ opening_family name = Raise IndexError
  /\ (forall eco, upsert_opening cur eco name = Raise IndexError)
  /\ process_game cur game = Raise IndexError
  /\ process_pgn cur (game :: rest) = Raise IndexError.
Proof.
  intros Hname Hblank.
  assert (Hsplit : PyStr.split_ws name = []) by (by apply blank_split_ws).
  assert (Hfam : opening_family name = Raise IndexError).
  { unfold opening_family. rewrite (isspace_no_colon _ Hblank).
    by rewrite Hsplit. }
  assert (Hgame : process_game cur game = Raise IndexError).
  { unfold process_game, upsert_opening.
    by rewrite (get_present _ _ _ _ Hname), Hfam. }
  repeat split; try done.
  - intros eco. unfold upsert_opening. by rewrite Hfam.
  - unfold process_pgn. cbn [process_games]. by rewrite Hgame.
Qed.

Lemma blank_opening_name_fails_witness :
  headers blank_opening_game !! "Opening" = Some ""
  /\ process_game empty_db blank_opening_game = Raise IndexError
  /\ process_pgn empty_db [blank_opening_game; najdorf_game]
     = Raise IndexError.
Proof.
  split; [reflexivity|].
  pose proof (blank_opening_name_fails empty_db blank_opening_game
                [najdorf_game] "" eq_refl eq_refl) as (_ & _ & _ & Hg & Hl).
  by split.
Defined.

(** *** The winner column *)

Lemma replace_from_absent (old new s : string) :
  occurs old s = false -> PyStr.replace_from old new 0 s = s.
Proof.
  induction s as [|a s IH]; [reflexivity|].
  cbn [occurs PyStr.replace_from].
  intros [Hhere Hlater]%orb_false_elim.
  rewrite Hhere. by rewrite (IH Hlater).
Qed.

Lemma replace_absent (old new s : string) :
  old <> "" -> occurs old s = false -> PyStr.replace old new s = s.
Proof.
  intros Hold Hs. destruct old; [done|]. by apply replace_from_absent.
Qed.

Lemma map_result_untouched (res : string) :
  occurs "1-0" res = false -> occurs "0-1" res = false ->
  occurs "1/2-1/2" res = false -> map_result res = res.
Proof.
  intros H1 H2 H3. unfold map_result.
  rewrite (replace_absent "1-0" "white" res) by done.
  rewrite (replace_absent "0-1" "black" res) by done.
  by apply replace_absent.
Qed.

Lemma append_inv_head (x a b : string) : x ++ a = x ++ b -> a = b.
Proof.
  induction x as [|c x IH]; unfold_append; [done|].
  intros [= H]. by apply IH.
Qed.

Lemma length_append (a b : string) :
  String.length (a ++ b) = (String.length a + String.length b)%nat.
Proof.
  induction a as [|c a IH]; unfold_append; [done|].
  cbn [String.length]. by rewrite IH.
Qed.

Lemma startswith_self (old rest : string) :
  PyStr.startswith old (old ++ rest) = true.
Proof.
  induction old as [|a old IH]; unfold_append; [by destruct rest|].
  cbn [PyStr.startswith]. by rewrite Ascii.eqb_refl, IH.
Qed.

Lemma startswith_app (old : string) :
  forall s, PyStr.startswith old s = true -> exists rest, s = old ++ rest.
Proof.
  induction old as [|a old IH]; intros s Hs.
  - exists s. by unfold_append.
  - destruct s as [|b s]; [discriminate|].
    cbn [PyStr.startswith] in Hs. apply andb_prop in Hs as (Hab & Hs).
    apply Ascii.eqb_eq in Hab as ->.
    destruct (IH s Hs) as (rest & ->). exists rest. by unfold_append.
Qed.

Lemma replace_from_skip (old new x rest : string) :
  PyStr.replace_from old new (String.length x) (x ++ rest)
  = PyStr.replace_from old new 0 rest.
Proof.
  induction x as [|a x IH]; unfold_append; [by destruct rest|].
  cbn [String.length PyStr.replace_from]. exact IH.
Qed.

Lemma replace_from_here (a : ascii) (old new rest : string) :
  PyStr.replace_from (String a old) new 0 (String a old ++ rest)
  = new ++ PyStr.replace_from (String a old) new 0 rest.
Proof.
  pose proof (startswith_self (String a old) rest) as Hhere.
  unfold_append. cbn [PyStr.replace_from]. rewrite Hhere.
  replace (String.length (String a old) - 1)%nat with (String.length old)
    by (cbn [String.length]; lia).
  f_equal. apply replace_from_skip.
Qed.

Lemma replace_replaced (old new : string) :
  old <> "" -> forall s, replaced old new s (PyStr.replace old new s).
Proof.
  intros Hold s. destruct old as [|o old]; [done|]. cbn [PyStr.replace].
  remember (String.length s) as n eqn:Hn.
  assert (Hle : (String.length s <= n)%nat) by lia. clear Hn.
  revert s Hle. induction n as [|n IH]; intros s Hle.
  - destruct s; [constructor | cbn in Hle; lia].
  - destruct s as [|b s]; [constructor|].
    destruct (PyStr.startswith (String o old) (String b s)) eqn:Hhere.
    + destruct (startswith_app _ _ Hhere) as (rest & Hs).
      rewrite Hs, replace_from_here.
      apply (replaced_here _ _ _ rest); [done|]. apply IH.
      apply (f_equal String.length) in Hs. rewrite length_append in Hs.
      cbn [String.length] in *. lia.
    + cbn [PyStr.replace_from]. rewrite Hhere.
      apply replaced_next; [done|]. apply IH. cbn in Hle. lia.
Qed.

Lemma replaced_functional (old new s t : string) :
  old <> "" -> replaced old new s t ->
  forall t', replaced old new s t' -> t = t'.
Proof.
  intros Hold H.
  assert (Hempty : forall rest, "" <> old ++ rest).
  { intros rest. destruct old; [done | by unfold_append]. }
  induction H as [|s rest rest' Hs H IH|a rest rest' Hno H IH];
    intros t' H'.
  - inversion H' as [|s0 rest0 rest0' Hs0 H0|]; [done|].
    by destruct (Hempty rest0).
  - assert (Hst : PyStr.startswith old s = true)
      by (rewrite Hs; apply startswith_self).
    inversion H' as [E|s0 rest0 rest0' Hs0 H0 E|a rest0 rest0' Hno H0 E].
    + rewrite <- E in Hs. by destruct (Hempty rest).
    + rewrite Hs in Hs0. apply append_inv_head in Hs0 as <-.
      by rewrite (IH _ H0).
    + rewrite <- E in Hst. congruence.
  - inversion H' as [|s0 rest0 rest0' Hs0 H0|a0 rest0 rest0' Hno0 H0].
    + rewrite Hs0, startswith_self in Hno. discriminate.
    + by rewrite (IH _ H0).
Qed.

Lemma map_result_replaced (res : string) :
  (exists s1 s2,
      replaced "1-0" "white" res s1 /\ replaced "0-1" "black" s1 s2
      /\ replaced "1/2-1/2" "draw" s2 (map_result res))
  /\ forall s1 s2 w,
       replaced "1-0" "white" res s1 -> replaced "0-1" "black" s1 s2 ->
       replaced "1/2-1/2" "draw" s2 w -> map_result res = w.
Proof.
  assert (H10 : "1-0" <> "") by discriminate.
  assert (H01 : "0-1" <> "") by discriminate.
  assert (H12 : "1/2-1/2" <> "") by discriminate.
  unfold map_result. split.
  - eexists _, _. repeat split; by apply replace_replaced.
  - intros s1 s2 w H1 H2 H3.
    rewrite (replaced_functional _ _ _ _ H10
               (replace_replaced "1-0" "white" H10 res) _ H1).
    rewrite (replaced_functional _ _ _ _ H01
               (replace_replaced "0-1" "black" H01 s1) _ H2).
    exact (replaced_functional _ _ _ _ H12
             (replace_replaced "1/2-1/2" "draw" H12 s2) _ H3).
Qed.

(** C3, as the code has it: the winner is the [Result] header after three
    replacements chained in this order: every occurrence of "1-0", found
    from the left without overlap, by "white"; in the text so obtained
    every such occurrence of "0-1" by "black"; and in that text every such
    occurrence of "1/2-1/2" by "draw".  The winner is the only text so
    obtained.  Hence the headers "1-0", "0-1" and "1/2-1/2" are stored as
    "white", "black" and "draw", and a [Result] text in which none of the
    three occurs is stored unchanged. *)
Theorem result_mapping
    (cur : db) (game : pgn_game) (f : string) (wr br : Z) :
  opening_family (get (headers game) "Opening" "Unknown") = Ok f ->
  get_int (headers game) "WhiteElo" = Ok wr ->
  get_int (headers game) "BlackElo" = Ok br ->
  exists cur' g, process_game cur game = Ok (cur', g)
    /\ (exists s1 s2,
          replaced "1-0" "white" (get (headers game) "Result" "*") s1
          /\ replaced "0-1" "black" s1 s2
          /\ replaced "1/2-1/2" "draw" s2 (Game.winner g))
    /\ (forall s1 s2 w,
          replaced "1-0" "white" (get (headers game) "Result" "*") s1 ->
          replaced "0-1" "black" s1 s2 ->
          replaced "1/2-1/2" "draw" s2 w ->
          Game.winner g = w)
    /\ (get (headers game) "Result" "*" = "1-0" -> Game.winner g = "white")
    /\ (get (headers game) "Result" "*" = "0-1" -> Game.winner g = "black")
    /\ (get (headers game) "Result" "*" = "1/2-1/2"
        -> Game.winner g = "draw")
    /\ (occurs "1-0" (get (headers game) "Result" "*") = false ->
        occurs "0-1" (get (headers game) "Result" "*") = false ->
        occurs "1/2-1/2" (get (headers game) "Result" "*") = false ->
        Game.winner g = get (headers game) "Result" "*").
Proof.
  intros Hf Hw Hb.
  destruct (process_game_ok cur game f wr br Hf Hw Hb)
    as (cur' & g & Hg & _ & _ & _ & _ & Hres & _).
  exists cur', g. split; [exact Hg|]. rewrite Hres.
  destruct (map_result_replaced (get (headers game) "Result" "*"))
    as (Hchain & Honly).
  split; [exact Hchain|]. split; [exact Honly|].
  repeat split.
  - by intros ->.
  - by intros ->.
  - by intros ->.
  - apply map_result_untouched.
Qed.

Lemma result_mapping_witness :
  exists cur' g, process_game empty_db najdorf_game = Ok (cur', g)
    /\ Game.winner g = "white".
Proof.
  destruct (result_mapping empty_db najdorf_game "Sicilian Defense" 2200 2100
              eq_refl eq_refl eq_refl)
    as (cur' & g & Hg & _ & _ & Hwhite & _).
  exists cur', g. split; [exact Hg|]. by apply Hwhite.
Defined.

(** C3 fails as stated: the [Result] text "1-0 forfeit" is none of the
    three literals and is not stored unchanged. *)
Lemma result_mapping_rewrites_inside :
  get (headers forfeit_game) "Result" "*" = "1-0 forfeit"
  /\ "1-0 forfeit" <> "1-0" /\ "1-0 forfeit" <> "0-1"
  /\ "1-0 forfeit" <> "1/2-1/2"
  /\ exists cur' g, process_game empty_db forfeit_game = Ok (cur', g)
       /\ Game.winner g = "white forfeit"
       /\ Game.winner g <> get (headers forfeit_game) "Result" "*".
Proof.
  split; [reflexivity|]. do 3 (split; [discriminate|]).
  eexists _, _. split; [vm_compute; reflexivity|].
  split; [reflexivity | discriminate].
Qed.

(** *** The ratings *)

(** C5, as the code has it: a rating header that is absent gives the rating
    0 and one that is an integer literal gives its value; a rating header
    that is present and is not an integer literal makes [int] raise
    [ValueError], which ends the processing of the record. *)
Theorem rating_extraction (cur : db) (game : pgn_game) (f : string) :
  opening_family (get (headers game) "Opening" "Unknown") = Ok f ->
  (forall wr br,
      match headers game !! "WhiteElo" with
      | None => wr = 0
      | Some text => PyStr.int text = Ok wr
      end ->
      match headers game !! "BlackElo" with
      | None => br = 0
      | Some text => PyStr.int text = Ok br
      end ->
      exists cur' g, process_game cur game = Ok (cur', g)
        /\ Game.white_rating g = wr /\ Game.black_rating g = br)
  /\ (forall text,
        headers game !! "WhiteElo" = Some text
        \/ headers game !! "BlackElo" = Some text ->
        PyStr.int text = Raise ValueError ->
        process_game cur game = Raise ValueError).
Proof.
  intros Hf. split.
  - intros wr br Hw Hb.
    assert (Hwi : get_int (headers game) "WhiteElo" = Ok wr).
    { unfold get_int. destruct (headers game !! "WhiteElo"); congruence. }
    assert (Hbi : get_int (headers game) "BlackElo" = Ok br).
    { unfold get_int. destruct (headers game !! "BlackElo"); congruence. }
    destruct (process_game_ok cur game f wr br Hf Hwi Hbi)
      as (cur' & g & Hg & _ & Hwr & Hbr & _).
    by exists cur', g.
  - intros text Hwhich Hbad. unfold process_game, upsert_opening.
    rewrite Hf. cbn [mbind result_bind]. unfold get_int.
    destruct Hwhich as [-> | Hblack].
    + by rewrite Hbad.
    + rewrite Hblack, Hbad.
      destruct (headers game !! "WhiteElo") as [w|]; [|reflexivity].
      destruct (PyStr.int w) as [z|e] eqn:Ew; [reflexivity|].
      by rewrite (int_raises _ _ Ew).
Qed.

Lemma rating_extraction_witness :
  (exists cur' g, process_game empty_db no_black_elo_game = Ok (cur', g)
     /\ Game.white_rating g = 2200 /\ Game.black_rating g = 0)
  /\ process_game
       (fst (upsert_player empty_db "dave" 1)) unrated_white_game
     = Raise ValueError.
Proof.
  split.
  - exact (proj1 (rating_extraction empty_db no_black_elo_game "English"
                    eq_refl) 2200 0 eq_refl eq_refl).
  - exact (proj2 (rating_extraction _ unrated_white_game "English" eq_refl)
             "?" (or_introl eq_refl) eq_refl).
Defined.

(** C5 fails as stated: a [WhiteElo] header that is present and is not an
    integer literal does not give the rating 0, it ends the record's
    processing with [ValueError]. *)
Lemma unparsable_rating_raises :
  headers unrated_white_game !! "WhiteElo" = Some "?"
  /\ PyStr.int "?" = Raise ValueError
  /\ get_int (headers unrated_white_game) "WhiteElo" = Raise ValueError
  /\ process_game empty_db unrated_white_game = Raise ValueError
  /\ process_pgn empty_db [unrated_white_game] = Raise ValueError.
Proof. repeat split; vm_compute; reflexivity. Qed.

(** C7: [rating_diff] is the absolute difference of the two ratings after
    defaulting: 100 for (2200, 2100), and 2200 when white has 2200 and the
    rating of black is absent. *)
Theorem rating_diff_absolute
    (cur : db) (game : pgn_game) (f : string) (wr br : Z) :
  opening_family (get (headers game) "Opening" "Unknown") = Ok f ->
  get_int (headers game) "WhiteElo" = Ok wr ->
  get_int (headers game) "BlackElo" = Ok br ->
  exists cur' g, process_game cur game = Ok (cur', g)
    /\ Game.white_rating g = wr /\ Game.black_rating g = br
    /\ Game.rating_diff g = Z.abs (wr - br)
    /\ 0 <= Game.rating_diff g
    /\ (wr = 2200 -> br = 2100 -> Game.rating_diff g = 100)
    /\ (wr = 2200 -> headers game !! "BlackElo" = None
        -> Game.rating_diff g = 2200).
Proof.
  intros Hf Hw Hb.
  destruct (process_game_ok cur game f wr br Hf Hw Hb)
    as (cur' & g & Hg & _ & Hwr & Hbr & Hd & _).
  exists cur', g. split; [exact Hg|]. rewrite Hd.
  repeat split; try done.
  - lia.
  - by intros -> ->.
  - intros -> Hnone. unfold get_int in Hb. rewrite Hnone in Hb.
    by injection Hb as <-.
Qed.

Lemma rating_diff_absolute_witness :
  (exists cur' g, process_game empty_db najdorf_game = Ok (cur', g)
     /\ Game.rating_diff g = 100)
  /\ (exists cur' g, process_game empty_db no_black_elo_game = Ok (cur', g)
        /\ Game.rating_diff g = 2200).
Proof.
  split.
  - destruct (rating_diff_absolute empty_db najdorf_game "Sicilian Defense"
                2200 2100 eq_refl eq_refl eq_refl)
      as (cur' & g & Hg & _ & _ & _ & _ & H100 & _).
    exists cur', g. split; [exact Hg | by apply H100].
  - destruct (rating_diff_absolute empty_db no_black_elo_game "English"
                2200 0 eq_refl eq_refl eq_refl)
      as (cur' & g & Hg & _ & _ & _ & _ & _ & H2200).
    exists cur', g. split; [exact Hg | by apply H2200].
Defined.

(** ** The upserts *)

(** C9: when the ECO code is already in [openings], the upsert overwrites
    the name with the new one and leaves the stored family, the identifier
    and the key as they were; no other row and no other table changes. *)
Theorem upsert_opening_conflict
    (cur : db) (eco name f : string) (old : Opening.row) :
  openings cur !! eco = Some old ->
  opening_family name = Ok f ->
  exists cur', upsert_opening cur eco name = Ok (cur', Opening.opening_id old)
    /\ openings cur' !! eco
       = Some {| Opening.opening_id := Opening.opening_id old;
                 Opening.name := name;
                 Opening.family := Opening.family old |}
    /\ dom (openings cur') = dom (openings cur)
    /\ (forall eco', eco' <> eco ->
          openings cur' !! eco' = openings cur !! eco')
    /\ players cur' = players cur /\ games cur' = games cur.
Proof.
  intros Hold Hf. unfold upsert_opening. rewrite Hf, Hold.
  cbn [mbind result_bind]. eexists. split; [reflexivity|].
  cbn [openings players games]. split; [by rewrite lookup_insert_eq|].
  split; [|split; [|done]].
  - rewrite dom_insert_L. apply (elem_of_dom_2 (D := gset string)) in Hold.
    set_solver.
  - intros eco' Hne. by rewrite lookup_insert_ne.
Qed.

Lemma upsert_opening_conflict_witness :
  openings najdorf_db !! "B90"
  = Some {| Opening.opening_id := 1;
            Opening.name := "Sicilian Defense: Najdorf";
            Opening.family := "Sicilian Defense" |}
  /\ exists cur', upsert_opening najdorf_db "B90" "Najdorf Variation"
                  = Ok (cur', 1)
       /\ openings cur' !! "B90"
          = Some {| Opening.opening_id := 1;
                    Opening.name := "Najdorf Variation";
                    Opening.family := "Sicilian Defense" |}.
Proof.
  split; [reflexivity|].
  destruct (upsert_opening_conflict najdorf_db "B90" "Najdorf Variation"
              "Najdorf" _ eq_refl eq_refl)
    as (cur' & Hup & Hrow & _).
  by exists cur'.
Defined.

Lemma upsert_player_keeps (cur : db) (user : string) (r : Z)
    (username : string) (old : Player.row) :
  players cur !! username = Some old ->
  exists new, players (fst (upsert_player cur user r)) !! username = Some new
    /\ Player.highest_rating old <= Player.highest_rating new
    /\ Player.player_id new = Player.player_id old.
Proof.
  intros Hold. unfold upsert_player. cbn [fst players].
  destruct (decide (user = username)) as [->|Hne].
  - rewrite lookup_insert_eq, Hold. eexists. split; [reflexivity|].
    cbn. split; [lia | done].
  - rewrite lookup_insert_ne by done. exists old. split; [done|].
    split; [lia | done].
Qed.

Lemma upsert_players_keep (ups : list (string * Z)) :
  forall (cur : db) (username : string) (old : Player.row),
    players cur !! username = Some old ->
    exists new, players (upsert_players cur ups) !! username = Some new
      /\ Player.highest_rating old <= Player.highest_rating new
      /\ Player.player_id new = Player.player_id old.
Proof.
  induction ups as [|[user r] ups IH]; intros cur username old Hold.
  - exists old. split; [done|]. split; [lia | done].
  - destruct (upsert_player_keeps cur user r username old Hold)
      as (mid & Hmid & Hle & Hid).
    destruct (IH _ username mid Hmid) as (new & Hnew & Hle' & Hid').
    exists new. split; [exact Hnew|]. split; [lia | congruence].
Qed.

(** C2: upserting a player with [r1] and then [r2] leaves the same store as
    with [r2] and then [r1]; the stored [highest_rating] is then
    [max r1 r2] for a player who was new (and the greatest of that and
    the rating stored before, for one who was not), and no sequence of
    upserts lowers a stored [highest_rating]. *)
Theorem upsert_player_greatest (cur : db) (username : string) (r1 r2 : Z) :
  upsert_twice cur username r1 r2 = upsert_twice cur username r2 r1
  /\ Player.highest_rating <$> players (upsert_twice cur username r1 r2)
                               !! username
     = Some (match players cur !! username with
             | None => Z.max r1 r2
             | Some old => Z.max (Player.highest_rating old) (Z.max r1 r2)
             end)
  /\ (forall ups old, players cur !! username = Some old ->
        exists new, players (upsert_players cur ups) !! username = Some new
          /\ Player.highest_rating old <= Player.highest_rating new
          /\ Player.player_id new = Player.player_id old).
Proof.
  split; [|split].
  - unfold upsert_twice, upsert_player.
    cbn [fst players players_seq openings openings_seq games].
    rewrite !lookup_insert_eq, !insert_insert_eq.
    destruct (players cur !! username) as [old|];
      cbn [Player.player_id Player.highest_rating];
      do 2 f_equal; f_equal; lia.
  - unfold upsert_twice, upsert_player.
    cbn [fst players]. rewrite !lookup_insert_eq.
    destruct (players cur !! username) as [old|]; cbn; f_equal; lia.
  - intros ups old Hold. by apply upsert_players_keep.
Qed.

(** ** Loading a record store *)

Lemma process_game_games
    (cur : db) (game : pgn_game) (cur' : db) (g : Game.row) :
  process_game cur game = Ok (cur', g) ->
  Game.game_id g = game_key game
  /\ games cur' = match games cur !! game_key game with
                  | Some _ => games cur
                  | None => <[game_key game := g]> (games cur)
                  end.
Proof.
  intros Hg. destruct (process_game_inv _ _ _ _ Hg) as (f & wr & br & Hf & Hw & Hb).
  destruct (process_game_ok cur game f wr br Hf Hw Hb)
    as (cur'' & g'' & Hg'' & Hk & _ & _ & _ & _ & Hgames).
  rewrite Hg in Hg''. injection Hg'' as <- <-. by split.
Qed.

Lemma process_game_again
    (cur0 : db) (game : pgn_game) (cur0' : db) (g0 : Game.row) (cur : db) :
  process_game cur0 game = Ok (cur0', g0) ->
  exists cur' g, process_game cur game = Ok (cur', g).
Proof.
  intros Hg.
  destruct (process_game_inv _ _ _ _ Hg) as (f & wr & br & Hf & Hw & Hb).
  destruct (process_game_ok cur game f wr br Hf Hw Hb) as (cur' & g & Hok & _).
  by exists cur', g.
Qed.

Lemma process_games_cons
    (cur : db) (game_ct : Z) (game : pgn_game) (rest : list pgn_game)
    (r : db * Z * list progress) :
  process_games cur game_ct (game :: rest) = Ok r ->
  exists cur' g r',
    process_game cur game = Ok (cur', g)
    /\ process_games cur' (game_ct + 1) rest = Ok r'
    /\ r'.1.1 = r.1.1.
Proof.
  cbn [process_games].
  destruct (process_game cur game) as [[cur' g]|]; [|discriminate].
  cbn [mbind result_bind].
  destruct (process_games cur' (game_ct + 1) rest)
    as [[[cur2 total] outs]|] eqn:Hrest; [|discriminate].
  cbn [mbind result_bind]. intros [= <-].
  by exists cur', g, (cur2, total, outs).
Qed.

Lemma process_games_keys (store : list pgn_game) :
  forall (cur : db) (game_ct : Z) (r : db * Z * list progress),
    process_games cur game_ct store = Ok r ->
    dom (games cur) ⊆ dom (games r.1.1)
    /\ forall game, game ∈ store -> game_key game ∈ dom (games r.1.1).
Proof.
  induction store as [|game rest IH]; intros cur game_ct r Hr.
  - injection Hr as <-. split; [done|]. intros game Hin. by inversion Hin.
  - destruct (process_games_cons _ _ _ _ _ Hr)
      as (cur' & g & r' & Hg & Hrest & <-).
    destruct (IH _ _ _ Hrest) as (Hsub & Hall).
    destruct (process_game_games _ _ _ _ Hg) as (_ & Hgames).
    assert (Hstep : dom (games cur) ⊆ dom (games cur')
                    /\ game_key game ∈ dom (games cur')).
    { rewrite Hgames.
      destruct (games cur !! game_key game) as [row|] eqn:E.
      - split; [done|]. by apply (elem_of_dom_2 _ _ row).
      - rewrite dom_insert_L. set_solver. }
    destruct Hstep as (Hsub' & Hkey).
    split; [set_solver|].
    intros game' [->|Hin]%elem_of_cons; [set_solver | by apply Hall].
Qed.

Lemma process_games_reload (store : list pgn_game) :
  forall (cur0 : db) (ct0 : Z) (r0 : db * Z * list progress),
    process_games cur0 ct0 store = Ok r0 ->
    forall (cur : db) (game_ct : Z),
      (forall game, game ∈ store -> game_key game ∈ dom (games cur)) ->
      exists r, process_games cur game_ct store = Ok r
                /\ games r.1.1 = games cur.
Proof.
  induction store as [|game rest IH]; intros cur0 ct0 r0 Hr0 cur game_ct Hin.
  - by exists (cur, game_ct, []).
  - destruct (process_games_cons _ _ _ _ _ Hr0)
      as (cur0' & g0 & r0' & Hg0 & Hrest0 & _).
    destruct (process_game_again _ _ _ _ cur Hg0) as (cur' & g & Hg).
    destruct (process_game_games _ _ _ _ Hg) as (_ & Hgames).
    assert (Hsame : games cur' = games cur).
    { rewrite Hgames.
      destruct (games cur !! game_key game) as [row|] eqn:E; [done|].
      exfalso. apply (not_elem_of_dom_2 (D := gset string)) in E.
      apply E, Hin. by left. }
    destruct (IH _ _ _ Hrest0 cur' (game_ct + 1)) as ([[cur2 total] outs] & Hrest & Hkeep).
    { intros game' Hin'. rewrite Hsame. apply Hin. by right. }
    cbn [process_games]. rewrite Hg. cbn [mbind result_bind].
    rewrite Hrest. cbn [mbind result_bind].
    eexists. split; [reflexivity|]. cbn [fst] in *. congruence.
Qed.

(** C1: an insert of a game whose [game_id] is already in [games] changes
    nothing, and after a load of a record store that went through, a second
    load of the same store goes through and leaves the [games] table, and
    so the number of its rows, as the first load left it. *)
Theorem load_twice_idempotent
    (cur : db) (store : list pgn_game) (cur1 : db) (out1 : list progress) :
  process_pgn cur store = Ok (cur1, out1) ->
  (forall (d : db) (row : Game.row),
      is_Some (games d !! Game.game_id row) -> insert_game d row = d)
  /\ exists cur2 out2, process_pgn cur1 store = Ok (cur2, out2)
       /\ games cur2 = games cur1
       /\ size (games cur2) = size (games cur1).
Proof.
  intros Hload. split.
  - intros d row [old Hold]. unfold insert_game. by rewrite Hold.
  - unfold process_pgn in *.
    destruct (process_games cur 0 store) as [[[c1 total] outs]|] eqn:Hfirst;
      [|discriminate].
    cbn [mbind result_bind] in Hload. injection Hload as -> <-.
    destruct (process_games_keys _ _ _ _ Hfirst) as (_ & Hkeys).
    destruct (process_games_reload _ _ _ _ Hfirst cur1 0 Hkeys)
      as ([[cur2 total2] outs2] & Hsecond & Hsame).
    rewrite Hsecond. cbn [mbind result_bind].
    eexists _, _. split; [reflexivity|]. cbn [fst] in Hsame.
    by rewrite Hsame.
Qed.

Lemma load_twice_idempotent_witness :
  exists cur1 out1, process_pgn empty_db sample_store = Ok (cur1, out1)
  /\ size (games cur1) = 2%nat
  /\ exists cur2 out2,
       process_pgn cur1 sample_store = Ok (cur2, out2)
       /\ size (games cur2) = size (games cur1).
Proof.
  assert (Hfirst : exists r, process_pgn empty_db sample_store = Ok r
                             /\ size (games r.1) = 2%nat).
  { eexists. split; vm_compute; reflexivity. }
  destruct Hfirst as ([cur1 out1] & Hload & Htwo).
  exists cur1, out1. split; [exact Hload|]. split; [exact Htwo|].
  destruct (load_twice_idempotent _ _ _ _ Hload)
    as (_ & cur2 & out2 & Hsecond & _ & Hsize).
  exists cur2, out2. split; assumption.
Defined.

(** ** The Collector *)

Lemma write_lines_one_per_line (pgn_lines : list string) :
  forall f_out,
    write_lines f_out pgn_lines = f_out ++ one_per_line pgn_lines.
Proof.
  induction pgn_lines as [|l ls IH]; intros f_out; cbn [write_lines one_per_line].
  - by rewrite append_empty_r.
  - by rewrite IH, !append_assoc.
Qed.

Lemma one_per_line_app (a b : list string) :
  one_per_line (a ++ b)%list = one_per_line a ++ one_per_line b.
Proof.
  induction a as [|x a IH]; cbn [one_per_line app]; [reflexivity|].
  by rewrite IH, !append_assoc.
Qed.

Lemma export_loop_file (api : client) (usernames : list string) :
  forall f_out,
    (export_loop api f_out usernames).1.1
    = f_out ++ one_per_line (received api usernames).
Proof.
  induction usernames as [|user rest IH]; intros f_out;
    cbn [export_loop received].
  - cbn. by rewrite append_empty_r.
  - destruct (api (request_for user)) as [s|e].
    + destruct (broken s) as [e|].
      * cbn. apply write_lines_one_per_line.
      * specialize (IH (write_lines f_out (lines s))).
        destruct (export_loop api (write_lines f_out (lines s)) rest)
          as [[f_end out] exc].
        cbn in *. rewrite IH, write_lines_one_per_line, one_per_line_app.
        by rewrite append_assoc.
    + destruct e; try (cbn; by rewrite append_empty_r).
      specialize (IH f_out).
      destruct (export_loop api f_out rest) as [[f_end out] exc].
      exact IH.
Qed.

(** C4, as the code has it: the file is opened for writing, which empties
    it, and during the run every line received from the source is written
    to it followed by a newline, in the order received: after a run with
    the token set the file holds the records of that run and nothing
    else, whatever it held before.  Without the token nothing is
    written. *)
Theorem export_games_writes_received
    (token : string) (api : client) (usernames : list string)
    (before : option string) :
  token <> "" ->
  file (export_games (Some token) api usernames before)
  = Some (one_per_line (received api usernames))
  /\ file (export_games (Some token) api usernames before)
     = file (export_games (Some token) api usernames None)
  /\ file (export_games None api usernames before) = before
  /\ file (export_games (Some "") api usernames before) = before.
Proof.
  intros Htoken. destruct token as [|a token]; [done|].
  unfold export_games.
  pose proof (export_loop_file api usernames "") as Hfile.
  destruct (export_loop api "" usernames) as [[f_end out] exc].
  cbn in Hfile. subst f_end. by rewrite append_nil.
Qed.

Lemma export_games_writes_received_witness :
  file (export_games (Some "lip_token") sample_api ["alice"; "zed"; "bob"]
          (Some ("[Site old]" ++ newline)))
  = Some ("[Site a1]" ++ newline ++ "[Site a2]" ++ newline
          ++ "[Site b1]" ++ newline).
Proof.
  destruct (export_games_writes_received "lip_token" sample_api
              ["alice"; "zed"; "bob"] (Some ("[Site old]" ++ newline)))
    as (Hfile & _); [discriminate|].
  exact Hfile.
Defined.

(** C4 fails as stated: a record that is in the file before a run is not
    in it after the run. *)
Lemma export_games_erases_earlier_records :
  file (export_games (Some "lip_token") sample_api ["bob"]
          (Some ("[Site old]" ++ newline)))
  = Some ("[Site b1]" ++ newline)
  /\ occurs "[Site old]" ("[Site old]" ++ newline) = true
  /\ occurs "[Site old]" ("[Site b1]" ++ newline) = false
  /\ PyStr.startswith ("[Site old]" ++ newline) ("[Site b1]" ++ newline)
     = false.
Proof. repeat split; vm_compute; reflexivity. Qed.


Lemma export_loop_answered (api : client) (usernames : list string) :
  (forall user, user ∈ usernames -> answered api user) ->
  forall f_out,
    attempted (export_loop api f_out usernames).1.2 = usernames
    /\ (export_loop api f_out usernames).2 = None
    /\ forall user, user ∈ usernames ->
         api (request_for user) = Raise ResponseError ->
         user ∈ reported (export_loop api f_out usernames).1.2.
Proof.
  induction usernames as [|user rest IH]; intros Hall f_out.
  - split; [done|]. split; [done|]. intros user Hin. by inversion Hin.
  - assert (Huser : answered api user) by (apply Hall; by left).
    assert (Hrest : forall u, u ∈ rest -> answered api u)
      by (intros u Hu; apply Hall; by right).
    unfold answered in Huser. cbn [export_loop].
    destruct (api (request_for user)) as [s|e] eqn:Hanswer.
    + rewrite Huser.
      destruct (IH Hrest (write_lines f_out (lines s)))
        as (Hatt & Hexc & Hrep).
      destruct (export_loop api (write_lines f_out (lines s)) rest)
        as [[f_end out] exc].
      cbn in *. split; [by rewrite Hatt|]. split; [done|].
      intros u [->|Hin]%elem_of_cons Hu; [congruence | by apply Hrep].
    + subst e.
      destruct (IH Hrest f_out) as (Hatt & Hexc & Hrep).
      destruct (export_loop api f_out rest) as [[f_end out] exc].
      cbn in *. split; [by rewrite Hatt|]. split; [done|].
      intros u [->|Hin]%elem_of_cons Hu; [by left | right; by apply Hrep].
Qed.

Lemma attempted_app (a b : list message) :
  attempted (a ++ b)%list = (attempted a ++ attempted b)%list.
Proof.
  induction a as [|m a IH]; [reflexivity|].
  destruct m; cbn [attempted app]; by rewrite ?IH.
Qed.



(** * The rest of the code *)

(** ** [chunked] *)

Lemma chunked_count_bounds (len n : Z) :
  0 <= len -> 0 < n ->
  ((len + n - 1) / n - 1) * n < len <= (len + n - 1) / n * n.
Proof.
  intros Hlen Hn.
  pose proof (Z.div_mod (len + n - 1) n ltac:(lia)) as Hdiv.
  pose proof (Z.mod_pos_bound (len + n - 1) n Hn) as Hmod.
  nia.
Qed.

Lemma chunked_positive {A : Type} (seq : list A) (n : Z) :
  0 < n ->
  Collector.chunked seq n
  = Ok (map (fun k => take (Z.to_nat n) (drop (k * Z.to_nat n) seq))
          (List.seq 0 (Z.to_nat ((Z.of_nat (List.length seq) + n - 1) / n)))).
Proof.
  intros Hn. unfold Collector.chunked, PyList.range0.
  destruct (Z.eqb_spec n 0) as [->|_]; [lia|].
  destruct (Z.ltb_spec n 0) as [Hneg|_]; [lia|].
  cbn [mbind result_bind]. f_equal. rewrite map_map.
  apply map_ext. intros k. unfold PyList.slice.
  assert (Hk : Z.to_nat (Z.of_nat k * n) = (k * Z.to_nat n)%nat)
    by (rewrite Z2Nat.inj_mul, Nat2Z.id; lia).
  rewrite Hk. f_equal.
  assert (Z.to_nat (Z.of_nat k * n + n) = (k * Z.to_nat n + Z.to_nat n)%nat)
    by (rewrite Z2Nat.inj_add, Hk; nia).
  lia.
Qed.

Lemma concat_chunks {A : Type} (seq : list A) (n m : nat) :
  List.concat (map (fun k => take n (drop (k * n) seq)) (List.seq 0 m))
  = take (m * n) seq.
Proof.
  induction m as [|m IH]; [reflexivity|].
  rewrite seq_S, map_app, concat_app, IH. cbn [map List.concat plus].
  rewrite app_nil_r, take_take_drop. f_equal. lia.
Qed.

(** X1: for a positive [n] the chunks, put end to end, are [seq]: no
    element is lost, repeated or moved. *)
Theorem chunked_concat {A : Type} (seq : list A) (n : Z) :
  0 < n ->
  exists chunks, Collector.chunked seq n = Ok chunks /\ List.concat chunks = seq.
Proof.
  intros Hn. eexists. split; [by apply chunked_positive|].
  rewrite concat_chunks. apply take_ge.
  pose proof (chunked_count_bounds (Z.of_nat (List.length seq)) n
                ltac:(lia) Hn) as [_ Hup].
  apply Nat2Z.inj_le. rewrite Nat2Z.inj_mul, !Z2Nat.id; [exact Hup | lia |].
  apply Z.div_pos; lia.
Qed.

Lemma chunked_concat_witness :
  Collector.chunked ["a"; "b"; "c"; "d"; "e"] 2
  = Ok [["a"; "b"]; ["c"; "d"]; ["e"]]
  /\ exists chunks, Collector.chunked ["a"; "b"; "c"; "d"; "e"] 2 = Ok chunks
       /\ List.concat chunks = ["a"; "b"; "c"; "d"; "e"].
Proof.
  split; [reflexivity|].
  exact (chunked_concat ["a"; "b"; "c"; "d"; "e"] 2 eq_refl).
Defined.

(** X2: for a positive [n] there are [(len(seq) + n - 1) // n] chunks, none
    is empty or longer than [n], and all but the last have exactly [n]
    elements. *)
Theorem chunked_sizes {A : Type} (seq : list A) (n : Z) (chunks : list (list A)) :
  0 < n ->
  Collector.chunked seq n = Ok chunks ->
  Z.of_nat (List.length chunks) = (Z.of_nat (List.length seq) + n - 1) / n
  /\ forall (k : nat) (c : list A), chunks !! k = Some c ->
       0 < Z.of_nat (List.length c) <= n
       /\ ((S k < List.length chunks)%nat -> Z.of_nat (List.length c) = n).
Proof.
  intros Hn. rewrite (chunked_positive seq n Hn). intros [= <-].
  pose proof (chunked_count_bounds (Z.of_nat (List.length seq)) n
                ltac:(lia) Hn) as [Hlow Hup].
  assert (Hm : 0 <= (Z.of_nat (List.length seq) + n - 1) / n)
    by (apply Z.div_pos; lia).
  rewrite length_map, length_seq. split; [lia|].
  intros k c Hc. rewrite list_lookup_fmap in Hc.
  destruct (List.seq 0 _ !! k) as [k'|] eqn:Hk; [|discriminate].
  apply lookup_seq in Hk as [-> Hlt]. cbn in Hc. injection Hc as <-.
  rewrite length_take, length_drop.
  assert (Hkn : Z.of_nat (k * Z.to_nat n) = Z.of_nat k * n)
    by (rewrite Nat2Z.inj_mul, Z2Nat.id; lia).
  split; [nia|]. intros Hnext. nia.
Qed.

Lemma chunked_sizes_witness :
  Z.of_nat (List.length [["a"; "b"]; ["c"; "d"]; ["e"]]) = (5 + 2 - 1) / 2
  /\ forall (k : nat) (c : list string),
       [["a"; "b"]; ["c"; "d"]; ["e"]] !! k = Some c ->
       0 < Z.of_nat (List.length c) <= 2
       /\ ((S k < 3)%nat -> Z.of_nat (List.length c) = 2).
Proof.
  exact (chunked_sizes ["a"; "b"; "c"; "d"; "e"] 2
           [["a"; "b"]; ["c"; "d"]; ["e"]] eq_refl eq_refl).
Defined.

(** X3: the edges of [chunked]: a step of 0 makes [range] raise
    [ValueError]; a negative [n] yields no chunk at all, whatever [seq]
    holds; an empty [seq] yields no chunk. *)
Theorem chunked_edges {A : Type} (seq : list A) (n : Z) :
  Collector.chunked seq 0 = Raise ValueError
  /\ (n < 0 -> Collector.chunked seq n = Ok [])
  /\ (n <> 0 -> Collector.chunked (@nil A) n = Ok []).
Proof.
  split; [reflexivity|]. split.
  - intros Hn. unfold Collector.chunked, PyList.range0.
    destruct (Z.eqb_spec n 0); [lia|].
    destruct (Z.ltb_spec n 0); [reflexivity | lia].
  - intros Hn. unfold Collector.chunked, PyList.range0.
    destruct (Z.eqb_spec n 0); [done|].
    destruct (Z.ltb_spec n 0) as [_|Hpos]; [reflexivity|].
    cbn [List.length Z.of_nat]. rewrite Z.div_small by lia. reflexivity.
Qed.

(** ** The Loader: what a load does to the store *)

Lemma process_game_steps
    (cur : db) (game : pgn_game) (cur' : db) (g : Game.row) :
  process_game cur game = Ok (cur', g) ->
  exists cur1 oid wr br,
    upsert_opening cur (get (headers game) "ECO" "?")
      (get (headers game) "Opening" "Unknown") = Ok (cur1, oid)
    /\ get_int (headers game) "WhiteElo" = Ok wr
    /\ get_int (headers game) "BlackElo" = Ok br
    /\ build_game_dict game
         (upsert_player cur1 (get (headers game) "White" "?") wr).2
         (upsert_player
            (upsert_player cur1 (get (headers game) "White" "?") wr).1
            (get (headers game) "Black" "?") br).2
         wr br oid = Ok g
    /\ cur' = insert_game
                (upsert_player
                   (upsert_player cur1 (get (headers game) "White" "?") wr).1
                   (get (headers game) "Black" "?") br).1
                g.
Proof.
  unfold process_game.
  destruct (upsert_opening cur _ _) as [[cur1 oid]|]; [|discriminate].
  cbn [mbind result_bind].
  destruct (get_int _ "WhiteElo") as [wr|]; [|discriminate].
  destruct (get_int _ "BlackElo") as [br|]; [|discriminate].
  cbn [mbind result_bind].
  destruct (upsert_player cur1 _ wr) as [cur2 wid] eqn:Hw.
  destruct (upsert_player cur2 _ br) as [cur3 bid] eqn:Hb.
  destruct (build_game_dict game wid bid wr br oid) as [g'|] eqn:Hg;
    [|discriminate].
  cbn [mbind result_bind]. intros [= <- <-].
  exists cur1, oid, wr, br.
  rewrite Hw. cbn [fst snd]. rewrite Hb. cbn [fst snd].
  repeat split; try reflexivity. exact Hg.
Qed.

Lemma process_game_failure (cur : db) (game : pgn_game) :
  match failure game with
  | Some e => process_game cur game = Raise e
  | None => exists cur' g, process_game cur game = Ok (cur', g)
  end.
Proof.
  unfold failure.
  destruct (opening_family _) as [f|e] eqn:Hf.
  - destruct (get_int _ "WhiteElo") as [wr|e] eqn:Hw.
    + destruct (get_int _ "BlackElo") as [br|e] eqn:Hb.
      * destruct (process_game_ok cur game f wr br Hf Hw Hb)
          as (cur' & g & Hg & _).
        by exists cur', g.
      * unfold process_game, upsert_opening.
        rewrite Hf. cbn [mbind result_bind]. by rewrite Hw, Hb.
    + unfold process_game, upsert_opening.
      rewrite Hf. cbn [mbind result_bind]. by rewrite Hw.
  - unfold process_game, upsert_opening. by rewrite Hf.
Qed.

Lemma failure_loadable (game : pgn_game) :
  failure game = None <-> loadable game.
Proof.
  unfold failure, loadable. split.
  - destruct (opening_family _) as [f|]; [|discriminate].
    destruct (get_int _ "WhiteElo") as [wr|]; [|discriminate].
    destruct (get_int _ "BlackElo") as [br|]; [|discriminate].
    intros _. repeat split; by eexists.
  - intros ((f & ->) & (wr & ->) & (br & ->)). reflexivity.
Qed.

Lemma process_games_outcome (store : list pgn_game) :
  forall (cur : db) (game_ct : Z),
    match first_failure store with
    | Some e => process_games cur game_ct store = Raise e
    | None =>
        exists cur', process_games cur game_ct store
                     = Ok (cur', game_ct + Z.of_nat (List.length store),
                           thousands game_ct (List.length store))
    end.
Proof.
  induction store as [|game rest IH]; intros cur game_ct.
  - cbn. exists cur. do 3 f_equal. lia.
  - cbn [first_failure process_games List.length thousands].
    pose proof (process_game_failure cur game) as Hgame.
    destruct (failure game) as [e|].
    + by rewrite Hgame.
    + destruct Hgame as (cur1 & g & ->). cbn [mbind result_bind].
      specialize (IH cur1 (game_ct + 1)).
      destruct (first_failure rest) as [e|].
      * by rewrite IH.
      * destruct IH as (cur' & ->). cbn [mbind result_bind].
        exists cur'. do 3 f_equal. lia.
Qed.

(** X4: whether a load goes through is decided by the records alone, not by
    what the store holds: it goes through when every record is loadable,
    and otherwise it ends with the exception of the first record that is
    not, whatever precedes and follows that record. *)
Theorem process_pgn_outcome (cur : db) (store : list pgn_game) :
  match first_failure store with
  | Some e => process_pgn cur store = Raise e
  | None => exists cur' out, process_pgn cur store = Ok (cur', out)
  end
  /\ (first_failure store = None
      <-> forall game, game ∈ store -> loadable game)
  /\ forall e, first_failure store = Some e ->
       e = IndexError \/ e = ValueError.
Proof.
  split; [|split].
  - unfold process_pgn.
    pose proof (process_games_outcome store cur 0) as Hloop.
    destruct (first_failure store) as [e|].
    + by rewrite Hloop.
    + destruct Hloop as (cur' & ->). cbn [mbind result_bind]. by eexists _, _.
  - induction store as [|game rest IH]; cbn [first_failure].
    + split; [|done]. intros _ game Hin. by inversion Hin.
    + destruct (failure game) as [e|] eqn:Hfail.
      * split; [discriminate|]. intros Hall.
        assert (Hl : loadable game) by (apply Hall; by left).
        apply failure_loadable in Hl. congruence.
      * rewrite IH. apply failure_loadable in Hfail. split.
        -- intros Hall g [->|Hin]%elem_of_cons; [done | by apply Hall].
        -- intros Hall g Hin. apply Hall. by right.
  - induction store as [|game rest IH]; cbn [first_failure]; [discriminate|].
    destruct (failure game) as [e'|] eqn:Hfail; [|exact IH].
    intros e [= <-]. unfold failure in Hfail.
    destruct (opening_family _) as [f|e0] eqn:Hf.
    + right.
      destruct (get_int _ "WhiteElo") as [wr|e1] eqn:Hw.
      * destruct (get_int _ "BlackElo") as [br|e2] eqn:Hb; [discriminate|].
        injection Hfail as <-. unfold get_int in Hb.
        destruct (headers game !! "BlackElo"); [|discriminate].
        by apply int_raises in Hb.
      * injection Hfail as <-. unfold get_int in Hw.
        destruct (headers game !! "WhiteElo"); [|discriminate].
        by apply int_raises in Hw.
    + left. injection Hfail as <-. unfold opening_family in Hf.
      destruct (PyStr.contains ":" _);
        [destruct (PyStr.split_sep ":" _) | destruct (PyStr.split_ws _)];
        cbn in Hf; congruence.
Qed.

Lemma process_pgn_inv
    (cur : db) (store : list pgn_game) (cur' : db) (out : list progress) :
  process_pgn cur store = Ok (cur', out) ->
  exists total outs,
    process_games cur 0 store = Ok (cur', total, outs)
    /\ out = (outs ++ [Finished total])%list.
Proof.
  unfold process_pgn.
  destruct (process_games cur 0 store) as [[[c total] outs]|]; [|discriminate].
  cbn [mbind result_bind]. intros [= <- <-]. by exists total, outs.
Qed.

Lemma thousands_elem (n : nat) :
  forall (game_ct k : Z),
    Inserted k ∈ thousands game_ct n
    <-> game_ct < k <= game_ct + Z.of_nat n /\ k mod 1000 = 0.
Proof.
  induction n as [|n IH]; intros game_ct k.
  - cbn. split; [intros Hin; by inversion Hin | lia].
  - cbn [thousands]. rewrite elem_of_app, IH.
    destruct (Z.eqb_spec ((game_ct + 1) mod 1000) 0) as [Hmod|Hmod].
    + rewrite list_elem_of_singleton. split.
      * intros [[= ->]|[Hk Hm]]; lia.
      * intros [Hk Hm]. destruct (decide (k = game_ct + 1)) as [->|Hne];
          [by left | right; lia].
    + split.
      * intros [Hin|[Hk Hm]]; [by inversion Hin | lia].
      * intros [Hk Hm]. right.
        destruct (decide (k = game_ct + 1)) as [->|Hne]; [done | lia].
Qed.

Lemma thousands_no_finished (n : nat) :
  forall (game_ct k : Z), Finished k ∉ thousands game_ct n.
Proof.
  induction n as [|n IH]; intros game_ct k Hin.
  - by inversion Hin.
  - cbn [thousands] in Hin. apply elem_of_app in Hin as [Hin|Hin].
    + destruct ((game_ct + 1) mod 1000 =? 0).
      * by apply list_elem_of_singleton in Hin.
      * by inversion Hin.
    + by apply IH in Hin.
Qed.

Lemma thousands_length (n : nat) :
  forall game_ct : Z,
    Z.of_nat (List.length (thousands game_ct n))
    = (game_ct + Z.of_nat n) / 1000 - game_ct / 1000.
Proof.
  induction n as [|n IH]; intros game_ct.
  - cbn [thousands List.length]. replace (game_ct + Z.of_nat 0) with game_ct by lia.
    lia.
  - cbn [thousands]. rewrite length_app, Nat2Z.inj_add, IH.
    replace (game_ct + Z.of_nat (S n)) with (game_ct + 1 + Z.of_nat n) by lia.
    destruct (Z.eqb_spec ((game_ct + 1) mod 1000) 0) as [Hmod|Hmod];
      cbn [List.length]; Z.div_mod_to_equations; lia.
Qed.

(** X5: the progress lines of a load that went through.  The counter counts
    the records processed, also those whose game was already stored: there
    is one [Inserted k] line for each multiple [k] of 1000 up to the number
    of records, no other, and the last line is [Finished] with the number
    of records. *)
Theorem process_pgn_progress
    (cur : db) (store : list pgn_game) (cur' : db) (out : list progress) :
  process_pgn cur store = Ok (cur', out) ->
  out = (thousands 0 (List.length store)
         ++ [Finished (Z.of_nat (List.length store))])%list
  /\ (forall k, Inserted k ∈ out
        <-> 0 < k <= Z.of_nat (List.length store) /\ k mod 1000 = 0)
  /\ (forall k, Finished k ∈ out <-> k = Z.of_nat (List.length store))
  /\ Z.of_nat (List.length out) = Z.of_nat (List.length store) / 1000 + 1.
Proof.
  intros Hload.
  destruct (process_pgn_inv _ _ _ _ Hload) as (total & outs & Hloop & ->).
  pose proof (process_games_outcome store cur 0) as Hout.
  destruct (first_failure store) as [e|]; [congruence|].
  destruct Hout as (c & Hc). rewrite Hc in Hloop.
  injection Hloop as -> <- <-. rewrite Z.add_0_l.
  split; [reflexivity|]. split; [|split].
  - intros k. rewrite elem_of_app, thousands_elem, list_elem_of_singleton.
    split; [intros [H|[=]]; lia | intros H; left; lia].
  - intros k. rewrite elem_of_app, list_elem_of_singleton. split.
    + intros [Hin|[= ->]]; [by apply thousands_no_finished in Hin | done].
    + intros ->. by right.
  - rewrite length_app, Nat2Z.inj_add, thousands_length.
    cbn [List.length]. rewrite Z.add_0_l. change (0 / 1000) with 0. lia.
Qed.

Lemma process_pgn_progress_witness :
  exists cur' out, process_pgn empty_db thousand_store = Ok (cur', out)
    /\ size (games cur') = 1%nat
    /\ out = [Inserted 1000; Finished 1000].
Proof.
  assert (Hfirst : exists r, process_pgn empty_db thousand_store = Ok r
                             /\ size (games r.1) = 1%nat).
  { eexists. split; vm_compute; reflexivity. }
  destruct Hfirst as ([cur' out] & Hload & Hone).
  exists cur', out. split; [exact Hload|]. split; [exact Hone|].
  destruct (process_pgn_progress _ _ _ _ Hload) as (Hout & _).
  rewrite Hout. vm_compute. reflexivity.
Defined.

(** *** Rows that were there before a load *)

Lemma keeps_rows_refl (cur : db) : keeps_rows cur cur.
Proof.
  repeat split.
  - done.
  - intros user p Hp. exists p. split; [done|]. split; [done | lia].
  - intros eco o Ho. by exists o.
Qed.

Lemma keeps_rows_trans (a b c : db) :
  keeps_rows a b -> keeps_rows b c -> keeps_rows a c.
Proof.
  intros (Hg1 & Hp1 & Ho1) (Hg2 & Hp2 & Ho2). repeat split.
  - intros key g Hg. by apply Hg2, Hg1.
  - intros user p Hp.
    destruct (Hp1 _ _ Hp) as (p1 & Hp1' & Hid1 & Hle1).
    destruct (Hp2 _ _ Hp1') as (p2 & Hp2' & Hid2 & Hle2).
    exists p2. split; [done|]. split; [congruence | lia].
  - intros eco o Ho.
    destruct (Ho1 _ _ Ho) as (o1 & Ho1' & Hid1 & Hf1).
    destruct (Ho2 _ _ Ho1') as (o2 & Ho2' & Hid2 & Hf2).
    exists o2. split; [done|]. split; congruence.
Qed.

Lemma upsert_player_keeps_rows (cur : db) (user : string) (r : Z) :
  keeps_rows cur (upsert_player cur user r).1.
Proof.
  repeat split.
  - done.
  - intros username p Hp.
    destruct (upsert_player_keeps cur user r username p Hp)
      as (new & Hnew & Hle & Hid).
    by exists new.
  - intros eco o Ho. by exists o.
Qed.

Lemma upsert_opening_keeps_rows
    (cur : db) (eco name : string) (cur' : db) (oid : Z) :
  upsert_opening cur eco name = Ok (cur', oid) -> keeps_rows cur cur'.
Proof.
  unfold upsert_opening.
  destruct (opening_family name) as [f|]; [|discriminate].
  cbn [mbind result_bind]. intros [= <- <-]. repeat split.
  - done.
  - intros user p Hp. exists p. split; [done|]. split; [done | lia].
  - intros eco' o Ho. cbn [openings].
    destruct (decide (eco = eco')) as [->|Hne].
    + rewrite lookup_insert_eq, Ho. by eexists.
    + rewrite lookup_insert_ne by done. by exists o.
Qed.

Lemma insert_game_keeps_rows (cur : db) (g : Game.row) :
  keeps_rows cur (insert_game cur g).
Proof.
  unfold insert_game.
  destruct (games cur !! Game.game_id g) as [old|] eqn:Hold;
    [apply keeps_rows_refl|].
  repeat split.
  - intros key g' Hg'. cbn [games].
    rewrite lookup_insert_ne; [done | congruence].
  - intros user p Hp. exists p. split; [done|]. split; [done | lia].
  - intros eco o Ho. by exists o.
Qed.

Lemma process_game_keeps_rows
    (cur : db) (game : pgn_game) (cur' : db) (g : Game.row) :
  process_game cur game = Ok (cur', g) -> keeps_rows cur cur'.
Proof.
  intros Hg.
  destruct (process_game_steps _ _ _ _ Hg)
    as (cur1 & oid & wr & br & Ho & _ & _ & _ & ->).
  eapply keeps_rows_trans; [by eapply upsert_opening_keeps_rows|].
  eapply keeps_rows_trans; [apply upsert_player_keeps_rows|].
  eapply keeps_rows_trans; [apply upsert_player_keeps_rows|].
  apply insert_game_keeps_rows.
Qed.

Lemma process_games_keeps_rows (store : list pgn_game) :
  forall (cur : db) (game_ct : Z) (r : db * Z * list progress),
    process_games cur game_ct store = Ok r -> keeps_rows cur r.1.1.
Proof.
  induction store as [|game rest IH]; intros cur game_ct r Hr.
  - injection Hr as <-. apply keeps_rows_refl.
  - destruct (process_games_cons _ _ _ _ _ Hr)
      as (cur' & g & r' & Hg & Hrest & <-).
    eapply keeps_rows_trans; [by eapply process_game_keeps_rows|].
    by eapply IH.
Qed.

(** X6: a load that went through deletes nothing and rewrites no game.  A
    game row that was stored is stored unchanged after it; a player that
    was stored keeps its identifier and its highest rating is not lower; an
    opening that was stored keeps its identifier and its family. *)
Theorem process_pgn_keeps_rows
    (cur : db) (store : list pgn_game) (cur' : db) (out : list progress) :
  process_pgn cur store = Ok (cur', out) ->
  (forall key g, games cur !! key = Some g -> games cur' !! key = Some g)
  /\ (forall user p, players cur !! user = Some p ->
        exists p', players cur' !! user = Some p'
          /\ Player.player_id p' = Player.player_id p
          /\ Player.highest_rating p <= Player.highest_rating p')
  /\ (forall eco o, openings cur !! eco = Some o ->
        exists o', openings cur' !! eco = Some o'
          /\ Opening.opening_id o' = Opening.opening_id o
          /\ Opening.family o' = Opening.family o).
Proof.
  intros Hload.
  destruct (process_pgn_inv _ _ _ _ Hload) as (total & outs & Hloop & _).
  exact (process_games_keeps_rows _ _ _ _ Hloop).
Qed.

Lemma process_pgn_keeps_rows_witness :
  exists cur' out, process_pgn najdorf_db sample_store = Ok (cur', out)
    /\ exists o', openings cur' !! "B90" = Some o'
         /\ Opening.opening_id o' = 1
         /\ Opening.family o' = "Sicilian Defense".
Proof.
  assert (Hfirst : exists r, process_pgn najdorf_db sample_store = Ok r).
  { eexists. vm_compute. reflexivity. }
  assert (Hold : exists o, openings najdorf_db !! "B90" = Some o
                           /\ Opening.opening_id o = 1
                           /\ Opening.family o = "Sicilian Defense").
  { eexists. repeat split; vm_compute; reflexivity. }
  destruct Hfirst as ([cur' out] & Hload).
  destruct Hold as (o & Ho & Hid & Hfam).
  exists cur', out. split; [exact Hload|].
  destruct (process_pgn_keeps_rows _ _ _ _ Hload) as (_ & _ & Hopen).
  destruct (Hopen _ _ Ho) as (o' & Ho' & Hid' & Hfam').
  exists o'. split; [exact Ho'|]. split; congruence.
Defined.

(** *** The rows of the records of a load *)

Lemma build_game_dict_fields
    (game : pgn_game) (wid bid wr br oid : Z) (g : Game.row) :
  build_game_dict game wid bid wr br oid = Ok g ->
  Game.white_id g = wid /\ Game.black_id g = bid
  /\ Game.white_rating g = wr /\ Game.black_rating g = br
  /\ Game.opening_id g = oid
  /\ Game.termination g = get (headers game) "Termination" "?"
  /\ Game.ply_count g = end_ply game
  /\ Game.played_at g
     = get (headers game) "UTCDate" "1970.01.01" ++ " "
       ++ get (headers game) "UTCTime" "00:00:00".
Proof.
  unfold build_game_dict.
  destruct (PyStr.last _) as [key|]; [|discriminate].
  cbn [mbind result_bind]. intros [= <-]. by repeat split.
Qed.

Lemma upsert_player_stored (cur : db) (user : string) (r : Z) :
  exists p, players (upsert_player cur user r).1 !! user = Some p
    /\ Player.player_id p = (upsert_player cur user r).2
    /\ r <= Player.highest_rating p.
Proof.
  unfold upsert_player. cbn [fst snd players].
  rewrite lookup_insert_eq. eexists. split; [reflexivity|].
  split; [reflexivity|].
  destruct (players cur !! user); cbn; lia.
Qed.

Lemma upsert_opening_stored
    (cur : db) (eco name : string) (cur' : db) (oid : Z) :
  upsert_opening cur eco name = Ok (cur', oid) ->
  exists o, openings cur' !! eco = Some o
    /\ Opening.opening_id o = oid /\ Opening.name o = name.
Proof.
  unfold upsert_opening.
  destruct (opening_family name) as [f|]; [|discriminate].
  cbn [mbind result_bind]. intros [= <- <-]. cbn [openings].
  rewrite lookup_insert_eq. eexists. split; [reflexivity|].
  by destruct (openings cur !! eco).
Qed.

Lemma insert_game_openings (cur : db) (g : Game.row) :
  openings (insert_game cur g) = openings cur.
Proof. unfold insert_game. by destruct (games cur !! Game.game_id g). Qed.

Lemma insert_game_players (cur : db) (g : Game.row) :
  players (insert_game cur g) = players cur.
Proof. unfold insert_game. by destruct (games cur !! Game.game_id g). Qed.

Lemma process_game_rows
    (cur : db) (game : pgn_game) (cur' : db) (g : Game.row) :
  process_game cur game = Ok (cur', g) ->
  (exists pw, players cur' !! get (headers game) "White" "?" = Some pw
     /\ Player.player_id pw = Game.white_id g
     /\ Game.white_rating g <= Player.highest_rating pw)
  /\ (exists pb, players cur' !! get (headers game) "Black" "?" = Some pb
        /\ Player.player_id pb = Game.black_id g
        /\ Game.black_rating g <= Player.highest_rating pb)
  /\ (exists o, openings cur' !! get (headers game) "ECO" "?" = Some o
        /\ Opening.opening_id o = Game.opening_id g
        /\ Opening.name o = get (headers game) "Opening" "Unknown")
  /\ get_int (headers game) "WhiteElo" = Ok (Game.white_rating g)
  /\ get_int (headers game) "BlackElo" = Ok (Game.black_rating g).
Proof.
  intros Hg.
  destruct (process_game_steps _ _ _ _ Hg)
    as (cur1 & oid & wr & br & Ho & Hw & Hb & Hdict & ->).
  destruct (build_game_dict_fields _ _ _ _ _ _ _ Hdict)
    as (-> & -> & -> & -> & -> & _).
  set (W := get (headers game) "White" "?") in *.
  set (B := get (headers game) "Black" "?") in *.
  set (cur2 := (upsert_player cur1 W wr).1).
  set (cur3 := (upsert_player cur2 B br).1).
  destruct (insert_game_keeps_rows cur3 g) as (_ & Hp4 & Ho4).
  destruct (upsert_player_stored cur1 W wr) as (pw & Hpw & Hwid & Hwle).
  destruct (upsert_player_stored cur2 B br) as (pb & Hpb & Hbid & Hble).
  destruct (upsert_player_keeps_rows cur2 B br) as (_ & Hp3 & Ho3).
  destruct (upsert_player_keeps_rows cur1 W wr) as (_ & _ & Ho2).
  destruct (upsert_opening_stored _ _ _ _ _ Ho) as (o & Hopen & Hoid & Hname).
  split; [|split; [|split; [|by split]]].
  - destruct (Hp3 _ _ Hpw) as (p3 & Hp3' & Hid3 & Hle3).
    destruct (Hp4 _ _ Hp3') as (p4 & Hp4' & Hid4 & Hle4).
    exists p4. split; [exact Hp4'|]. split; [congruence | lia].
  - destruct (Hp4 _ _ Hpb) as (p4 & Hp4' & Hid4 & Hle4).
    exists p4. split; [exact Hp4'|]. split; [congruence | lia].
  - exists o. split; [|by split].
    rewrite insert_game_openings. exact Hopen.
Qed.

Lemma keeps_has_player_id (cur cur' : db) (id : Z) :
  keeps_rows cur cur' -> has_player_id cur id -> has_player_id cur' id.
Proof.
  intros (_ & Hp & _) (user & p & Hlook & Hid).
  destruct (Hp _ _ Hlook) as (p' & Hlook' & Hid' & _).
  exists user, p'. split; [done | congruence].
Qed.

Lemma keeps_has_opening_id (cur cur' : db) (id : Z) :
  keeps_rows cur cur' -> has_opening_id cur id -> has_opening_id cur' id.
Proof.
  intros (_ & _ & Ho) (eco & o & Hlook & Hid).
  destruct (Ho _ _ Hlook) as (o' & Hlook' & Hid' & _).
  exists eco, o'. split; [done | congruence].
Qed.

Lemma process_game_references
    (cur : db) (game : pgn_game) (cur' : db) (g : Game.row) :
  process_game cur game = Ok (cur', g) ->
  references_resolve cur -> references_resolve cur'.
Proof.
  intros Hg Hres key g0 Hk.
  pose proof (process_game_keeps_rows _ _ _ _ Hg) as Hkeeps.
  destruct (process_game_games _ _ _ _ Hg) as (Hid & Hgames).
  assert (Hold : games cur !! key = Some g0 ->
                 Game.game_id g0 = key
                 /\ has_player_id cur' (Game.white_id g0)
                 /\ has_player_id cur' (Game.black_id g0)
                 /\ has_opening_id cur' (Game.opening_id g0)).
  { intros Hcur. destruct (Hres _ _ Hcur) as (Hkey & Hw & Hb & Ho).
    split; [done|]. split; [by eapply keeps_has_player_id|].
    split; [by eapply keeps_has_player_id | by eapply keeps_has_opening_id]. }
  rewrite Hgames in Hk.
  destruct (games cur !! game_key game) as [old|] eqn:E; [by apply Hold|].
  destruct (decide (game_key game = key)) as [<-|Hne].
  - rewrite lookup_insert_eq in Hk. injection Hk as <-.
    destruct (process_game_rows _ _ _ _ Hg)
      as ((pw & Hpw & Hwid & _) & (pb & Hpb & Hbid & _)
          & (o & Ho & Hoid & _) & _).
    split; [done|]. split; [by eexists _, pw|].
    split; [by eexists _, pb | by eexists _, o].
  - rewrite lookup_insert_ne in Hk by done. by apply Hold.
Qed.

Lemma process_games_references (store : list pgn_game) :
  forall (cur : db) (game_ct : Z) (r : db * Z * list progress),
    process_games cur game_ct store = Ok r ->
    references_resolve cur -> references_resolve r.1.1.
Proof.
  induction store as [|game rest IH]; intros cur game_ct r Hr Hres.
  - by injection Hr as <-.
  - destruct (process_games_cons _ _ _ _ _ Hr)
      as (cur' & g & r' & Hg & Hrest & <-).
    eapply IH; [exact Hrest|]. by eapply process_game_references.
Qed.

Lemma references_resolve_empty : references_resolve empty_db.
Proof. intros key g Hk. cbn in Hk. by rewrite lookup_empty in Hk. Qed.

(** X7: a load keeps the references of the [games] table whole.  When
    every game row of the store is stored under its own [game_id] and its
    player and opening identifiers are those of stored rows, the same
    holds after a load that went through. *)
Theorem process_pgn_references
    (cur : db) (store : list pgn_game) (cur' : db) (out : list progress) :
  process_pgn cur store = Ok (cur', out) ->
  references_resolve cur ->
  references_resolve cur'.
Proof.
  intros Hload Hres.
  destruct (process_pgn_inv _ _ _ _ Hload) as (total & outs & Hloop & _).
  exact (process_games_references _ _ _ _ Hloop Hres).
Qed.

Lemma process_pgn_references_witness :
  exists cur' out, process_pgn empty_db sample_store = Ok (cur', out)
    /\ references_resolve empty_db
    /\ references_resolve cur'.
Proof.
  assert (Hfirst : exists r, process_pgn empty_db sample_store = Ok r).
  { eexists. vm_compute. reflexivity. }
  destruct Hfirst as ([cur' out] & Hload).
  exists cur', out. split; [exact Hload|].
  split; [exact references_resolve_empty|].
  exact (process_pgn_references _ _ _ _ Hload references_resolve_empty).
Defined.

Lemma process_games_rated (store : list pgn_game) :
  forall (cur : db) (game_ct : Z) (r : db * Z * list progress),
    process_games cur game_ct store = Ok r ->
    forall game, game ∈ store ->
      exists wr br pw pb,
        get_int (headers game) "WhiteElo" = Ok wr
        /\ get_int (headers game) "BlackElo" = Ok br
        /\ players r.1.1 !! get (headers game) "White" "?" = Some pw
        /\ wr <= Player.highest_rating pw
        /\ players r.1.1 !! get (headers game) "Black" "?" = Some pb
        /\ br <= Player.highest_rating pb.
Proof.
  induction store as [|game rest IH]; intros cur game_ct r Hr game' Hin.
  - by inversion Hin.
  - destruct (process_games_cons _ _ _ _ _ Hr)
      as (cur' & g & r' & Hg & Hrest & <-).
    apply elem_of_cons in Hin as [->|Hin]; [|by eapply IH].
    destruct (process_game_rows _ _ _ _ Hg)
      as ((pw & Hpw & _ & Hwle) & (pb & Hpb & _ & Hble) & _ & Hw & Hb).
    destruct (process_games_keeps_rows _ _ _ _ Hrest) as (_ & Hkeep & _).
    destruct (Hkeep _ _ Hpw) as (pw' & Hpw' & _ & Hwle').
    destruct (Hkeep _ _ Hpb) as (pb' & Hpb' & _ & Hble').
    exists (Game.white_rating g), (Game.black_rating g), pw', pb'.
    repeat split; try done; lia.
Qed.

(** X8: after a load that went through, both players of every record of
    the store are stored, and the highest rating of each is at least the
    rating the record gives that player, wherever in the store the record
    is. *)
Theorem process_pgn_highest_rating
    (cur : db) (store : list pgn_game) (cur' : db) (out : list progress)
    (game : pgn_game) :
  process_pgn cur store = Ok (cur', out) ->
  game ∈ store ->
  exists wr br pw pb,
    get_int (headers game) "WhiteElo" = Ok wr
    /\ get_int (headers game) "BlackElo" = Ok br
    /\ players cur' !! get (headers game) "White" "?" = Some pw
    /\ wr <= Player.highest_rating pw
    /\ players cur' !! get (headers game) "Black" "?" = Some pb
    /\ br <= Player.highest_rating pb.
Proof.
  intros Hload Hin.
  destruct (process_pgn_inv _ _ _ _ Hload) as (total & outs & Hloop & _).
  exact (process_games_rated _ _ _ _ Hloop game Hin).
Qed.

Lemma process_pgn_highest_rating_witness :
  exists cur' out, process_pgn empty_db sample_store = Ok (cur', out)
    /\ najdorf_game ∈ sample_store
    /\ exists wr pw,
         get_int (headers najdorf_game) "WhiteElo" = Ok wr
         /\ players cur' !! get (headers najdorf_game) "White" "?" = Some pw
         /\ wr <= Player.highest_rating pw.
Proof.
  assert (Hfirst : exists r, process_pgn empty_db sample_store = Ok r).
  { eexists. vm_compute. reflexivity. }
  assert (Hin : najdorf_game ∈ sample_store) by apply list_elem_of_here.
  destruct Hfirst as ([cur' out] & Hload).
  exists cur', out. split; [exact Hload|]. split; [exact Hin|].
  destruct (process_pgn_highest_rating _ _ _ _ _ Hload Hin)
    as (wr & br & pw & pb & Hw & _ & Hpw & Hle & _).
  exists wr, pw. repeat split; assumption.
Defined.

(** *** The keys of the tables after a load *)

Lemma upsert_opening_frame
    (cur : db) (eco name : string) (cur' : db) (oid : Z) :
  upsert_opening cur eco name = Ok (cur', oid) ->
  players cur' = players cur /\ games cur' = games cur
  /\ dom (openings cur') = {[eco]} ∪ dom (openings cur).
Proof.
  unfold upsert_opening.
  destruct (opening_family name) as [f|]; [|discriminate].
  cbn [mbind result_bind]. intros [= <- <-]. cbn [players games openings].
  by rewrite dom_insert_L.
Qed.

Lemma process_game_dom
    (cur : db) (game : pgn_game) (cur' : db) (g : Game.row) :
  process_game cur game = Ok (cur', g) ->
  dom (games cur') = {[game_key game]} ∪ dom (games cur)
  /\ dom (players cur') = {[white_of game; black_of game]} ∪ dom (players cur)
  /\ dom (openings cur') = {[eco_of game]} ∪ dom (openings cur).
Proof.
  intros Hg. destruct (process_game_games _ _ _ _ Hg) as (_ & Hgames).
  destruct (process_game_steps _ _ _ _ Hg)
    as (cur1 & oid & wr & br & Ho & _ & _ & _ & ->).
  destruct (upsert_opening_frame _ _ _ _ _ Ho) as (Hp1 & _ & Ho1).
  split; [|split].
  - rewrite Hgames.
    destruct (games cur !! game_key game) as [old|] eqn:E.
    + apply (elem_of_dom_2 (D := gset string)) in E. set_solver.
    + by rewrite dom_insert_L.
  - rewrite insert_game_players. unfold upsert_player at 1. cbn [fst players].
    rewrite dom_insert_L. unfold upsert_player. cbn [fst players].
    rewrite dom_insert_L, Hp1. unfold white_of, black_of. set_solver.
  - rewrite insert_game_openings. exact Ho1.
Qed.

Lemma process_games_dom (store : list pgn_game) :
  forall (cur : db) (game_ct : Z) (r : db * Z * list progress),
    process_games cur game_ct store = Ok r ->
    dom (games r.1.1) = dom (games cur) ∪ list_to_set (game_key <$> store)
    /\ dom (players r.1.1)
       = dom (players cur) ∪ list_to_set (white_of <$> store)
         ∪ list_to_set (black_of <$> store)
    /\ dom (openings r.1.1)
       = dom (openings cur) ∪ list_to_set (eco_of <$> store).
Proof.
  induction store as [|game rest IH]; intros cur game_ct r Hr.
  - injection Hr as <-. cbn [fst fmap list_fmap list_to_set].
    repeat split; set_solver.
  - destruct (process_games_cons _ _ _ _ _ Hr)
      as (cur' & g & r' & Hg & Hrest & <-).
    destruct (IH _ _ _ Hrest) as (Hgs & Hps & Hos).
    destruct (process_game_dom _ _ _ _ Hg) as (Hg1 & Hp1 & Ho1).
    rewrite Hgs, Hps, Hos, Hg1, Hp1, Ho1, !fmap_cons, !list_to_set_cons.
    repeat split; set_solver.
Qed.

(** X9: the rows of the three tables after a load that went through are
    those that were there and one for each key the records name, no other:
    a game for each [game_id], a player for each White and each Black name,
    an opening for each ECO code.  Records that name a key again add no
    row. *)
Theorem process_pgn_tables
    (cur : db) (store : list pgn_game) (cur' : db) (out : list progress) :
  process_pgn cur store = Ok (cur', out) ->
  dom (games cur') = dom (games cur) ∪ list_to_set (game_key <$> store)
  /\ dom (players cur')
     = dom (players cur) ∪ list_to_set (white_of <$> store)
       ∪ list_to_set (black_of <$> store)
  /\ dom (openings cur')
     = dom (openings cur) ∪ list_to_set (eco_of <$> store).
Proof.
  intros Hload.
  destruct (process_pgn_inv _ _ _ _ Hload) as (total & outs & Hloop & _).
  exact (process_games_dom _ _ _ _ Hloop).
Qed.

Lemma process_pgn_tables_witness :
  exists cur' out, process_pgn empty_db sample_store = Ok (cur', out)
    /\ dom (games cur')
       = dom (games empty_db) ∪ list_to_set (game_key <$> sample_store).
Proof.
  assert (Hfirst : exists r, process_pgn empty_db sample_store = Ok r).
  { eexists. vm_compute. reflexivity. }
  destruct Hfirst as ([cur' out] & Hload).
  exists cur', out. split; [exact Hload|].
  exact (proj1 (process_pgn_tables _ _ _ _ Hload)).
Defined.

(** *** Which record a game row comes from *)

Lemma process_game_columns
    (cur : db) (game : pgn_game) (cur' : db) (g : Game.row) :
  process_game cur game = Ok (cur', g) ->
  Game.winner g = map_result (get (headers game) "Result" "*")
  /\ Game.termination g = get (headers game) "Termination" "?"
  /\ Game.ply_count g = end_ply game
  /\ Game.played_at g
     = get (headers game) "UTCDate" "1970.01.01" ++ " "
       ++ get (headers game) "UTCTime" "00:00:00"
  /\ get_int (headers game) "WhiteElo" = Ok (Game.white_rating g)
  /\ get_int (headers game) "BlackElo" = Ok (Game.black_rating g).
Proof.
  intros Hg.
  destruct (process_game_rows _ _ _ _ Hg) as (_ & _ & _ & Hw & Hb).
  destruct (process_game_steps _ _ _ _ Hg)
    as (cur1 & oid & wr & br & _ & _ & _ & Hdict & _).
  destruct (build_game_dict_fields _ _ _ _ _ _ _ Hdict)
    as (_ & _ & _ & _ & _ & Hterm & Hply & Hat).
  destruct (build_game_dict_ok game
              (upsert_player cur1 (get (headers game) "White" "?") wr).2
              (upsert_player
                 (upsert_player cur1 (get (headers game) "White" "?") wr).1
                 (get (headers game) "Black" "?") br).2
              wr br oid)
    as (g' & Hdict' & _ & _ & _ & _ & Hres).
  rewrite Hdict in Hdict'. injection Hdict' as <-.
  by repeat split.
Qed.

Lemma process_games_first (pre : list pgn_game) :
  forall (cur : db) (game_ct : Z) (game : pgn_game) (post : list pgn_game)
         (r : db * Z * list progress),
    process_games cur game_ct (pre ++ game :: post)%list = Ok r ->
    games cur !! game_key game = None ->
    (forall earlier, earlier ∈ pre -> game_key earlier <> game_key game) ->
    exists cur0 cur1 g,
      process_game cur0 game = Ok (cur1, g)
      /\ games r.1.1 !! game_key game = Some g.
Proof.
  induction pre as [|e pre IH]; intros cur game_ct game post r Hr Hnew Hpre.
  - cbn [app] in Hr.
    destruct (process_games_cons _ _ _ _ _ Hr)
      as (cur' & g & r' & Hg & Hrest & <-).
    exists cur, cur', g. split; [exact Hg|].
    destruct (process_games_keeps_rows _ _ _ _ Hrest) as (Hkeep & _).
    apply Hkeep.
    destruct (process_game_games _ _ _ _ Hg) as (_ & ->).
    rewrite Hnew. by rewrite lookup_insert_eq.
  - cbn [app] in Hr.
    destruct (process_games_cons _ _ _ _ _ Hr)
      as (cur' & g & r' & Hg & Hrest & <-).
    eapply IH; [exact Hrest | |].
    + destruct (process_game_games _ _ _ _ Hg) as (_ & ->).
      assert (Hne : game_key e <> game_key game) by (apply Hpre; by left).
      destruct (games cur !! game_key e); [done|].
      by rewrite lookup_insert_ne.
    + intros earlier Hin. apply Hpre. by right.
Qed.

(** X10: the first record of a game wins.  When a load that went through
    comes to a record whose [game_id] is neither stored nor that of an
    earlier record, the game row stored under that [game_id] after the load
    is the one built from this record: its result, termination, ply count,
    date and ratings are this record's, whatever later records with the
    same [game_id] say. *)
Theorem process_pgn_first_record_wins
    (cur : db) (pre : list pgn_game) (game : pgn_game) (post : list pgn_game)
    (cur' : db) (out : list progress) :
  process_pgn cur (pre ++ game :: post)%list = Ok (cur', out) ->
  games cur !! game_key game = None ->
  (forall earlier, earlier ∈ pre -> game_key earlier <> game_key game) ->
  exists g, games cur' !! game_key game = Some g
    /\ Game.game_id g = game_key game
    /\ Game.winner g = map_result (get (headers game) "Result" "*")
    /\ Game.termination g = get (headers game) "Termination" "?"
    /\ Game.ply_count g = end_ply game
    /\ Game.played_at g
       = get (headers game) "UTCDate" "1970.01.01" ++ " "
         ++ get (headers game) "UTCTime" "00:00:00"
    /\ get_int (headers game) "WhiteElo" = Ok (Game.white_rating g)
    /\ get_int (headers game) "BlackElo" = Ok (Game.black_rating g).
Proof.
  intros Hload Hnew Hpre.
  destruct (process_pgn_inv _ _ _ _ Hload) as (total & outs & Hloop & _).
  destruct (process_games_first _ _ _ _ _ _ Hloop Hnew Hpre)
    as (cur0 & cur1 & g & Hg & Hstored).
  exists g. split; [exact Hstored|].
  split; [exact (proj1 (process_game_games _ _ _ _ Hg))|].
  exact (process_game_columns _ _ _ _ Hg).
Qed.

Lemma process_pgn_first_record_wins_witness :
  exists cur' out g,
    process_pgn empty_db rematch_store = Ok (cur', out)
    /\ games cur' !! game_key najdorf_rematch = Some g
    /\ Game.winner g = "white"
    /\ Game.white_rating g = 2200.
Proof.
  assert (Hfirst : exists r, process_pgn empty_db rematch_store = Ok r).
  { eexists. vm_compute. reflexivity. }
  destruct Hfirst as ([cur' out] & Hload).
  assert (Hnew : games empty_db !! game_key najdorf_game = None)
    by (vm_compute; reflexivity).
  assert (Hpre : forall earlier, earlier ∈ [no_black_elo_game] ->
                   game_key earlier <> game_key najdorf_game).
  { intros earlier Hin. apply list_elem_of_singleton in Hin. subst earlier.
    vm_compute. discriminate. }
  destruct (process_pgn_first_record_wins empty_db [no_black_elo_game]
              najdorf_game [najdorf_rematch] cur' out Hload Hnew Hpre)
    as (g & Hstored & _ & Hwin & _ & _ & _ & Hw & _).
  exists cur', out, g. split; [exact Hload|].
  split; [exact Hstored|]. split; [exact Hwin|].
  assert (Hwr : get_int (headers najdorf_game) "WhiteElo" = Ok 2200)
    by (vm_compute; reflexivity).
  rewrite Hwr in Hw. by injection Hw.
Defined.

(** *** The [game_id] of a record *)

Lemma split_sep_none (c : ascii) (s : string) :
  PyStr.contains c s = false -> PyStr.split_sep c s = [s].
Proof.
  induction s as [|a s IH]; simpl; [done|].
  destruct (Ascii.eqb a c); [discriminate|].
  intros Hn. by rewrite (IH Hn).
Qed.

Lemma split_sep_two (c : ascii) (s : string) :
  PyStr.contains c s = true ->
  exists h x t, PyStr.split_sep c s = h :: x :: t.
Proof.
  induction s as [|a s IH]; simpl; [discriminate|].
  destruct (Ascii.eqb a c).
  - intros _. destruct (split_sep_cons c s) as (h & t & ->).
    by eexists _, _, _.
  - intros Hc. destruct (IH Hc) as (h & x & t & ->). by eexists _, _, _.
Qed.

Lemma last_split_sep (c : ascii) (s : string) :
  List.last (PyStr.split_sep c s) "" = after_last c s.
Proof.
  induction s as [|a s IH]; [reflexivity|].
  cbn [PyStr.split_sep after_last].
  destruct (PyStr.contains c s) eqn:Hc.
  - destruct (split_sep_two c s Hc) as (h & x & t & E).
    rewrite E in IH |- *. by destruct (Ascii.eqb a c).
  - rewrite (split_sep_none c s Hc). by destruct (Ascii.eqb a c).
Qed.

Lemma after_last_clean (c : ascii) (s : string) :
  PyStr.contains c (after_last c s) = false.
Proof.
  induction s as [|a s IH]; [reflexivity|].
  cbn [after_last].
  destruct (PyStr.contains c s) eqn:Hc; [exact IH|].
  destruct (Ascii.eqb a c) eqn:E; [exact Hc|].
  simpl. by rewrite E.
Qed.

Lemma after_last_suffix (c : ascii) (s : string) :
  exists pre, s = pre ++ after_last c s
    /\ if PyStr.contains c s then exists p, pre = p ++ String c ""
       else pre = "".
Proof.
  induction s as [|a s (pre & Hs & Hpre)]; [by exists ""|].
  cbn [after_last PyStr.contains].
  destruct (PyStr.contains c s) eqn:Hc.
  - destruct Hpre as (p & ->).
    exists (String a (p ++ String c "")). unfold_append.
    split; [by rewrite <- Hs|].
    destruct (Ascii.eqb a c); by exists (String a p).
  - subst pre. destruct (Ascii.eqb a c) eqn:E.
    + apply Ascii.eqb_eq in E as ->.
      exists (String c ""). split; [by unfold_append | by exists ""].
    + by exists "".
Qed.

(** X11: the [game_id] of a record is the text of its [Site] header after
    the last slash, and all of it when it has none: it holds no slash, the
    header is some text followed by it, and that text is empty or ends in a
    slash.  A record whose [Site] ends in a slash gets the empty
    [game_id]. *)
Theorem process_game_game_id
    (cur : db) (game : pgn_game) (cur' : db) (g : Game.row) :
  process_game cur game = Ok (cur', g) ->
  Game.game_id g = after_last "/" (get (headers game) "Site" "")
  /\ PyStr.contains "/" (Game.game_id g) = false
  /\ (exists pre, get (headers game) "Site" "" = pre ++ Game.game_id g
        /\ if PyStr.contains "/" (get (headers game) "Site" "")
           then exists p, pre = p ++ "/"
           else pre = "")
  /\ (forall p, headers game !! "Site" = Some (p ++ "/") ->
        Game.game_id g = "").
Proof.
  intros Hg. destruct (process_game_games _ _ _ _ Hg) as (Hid & _).
  unfold game_key in Hid. rewrite last_split_sep in Hid.
  split; [exact Hid|]. rewrite Hid.
  split; [apply after_last_clean|]. split; [apply after_last_suffix|].
  intros p Hsome. rewrite (get_present _ _ _ _ Hsome).
  clear. induction p as [|a p IH]; [reflexivity|].
  unfold_append. cbn [after_last].
  assert (Hc : PyStr.contains "/" (p ++ "/") = true).
  { clear. induction p as [|b p IH]; [reflexivity|].
    unfold_append. simpl. by destruct (Ascii.eqb b "/"). }
  by rewrite Hc.
Qed.

Lemma process_game_game_id_witness :
  exists cur' g, process_game empty_db najdorf_game = Ok (cur', g)
    /\ Game.game_id g = "AbCd1234".
Proof.
  assert (Hfirst : exists r, process_game empty_db najdorf_game = Ok r).
  { eexists. vm_compute. reflexivity. }
  destruct Hfirst as ([cur' g] & Hg).
  exists cur', g. split; [exact Hg|].
  destruct (process_game_game_id _ _ _ _ Hg) as (Hid & _).
  rewrite Hid. vm_compute. reflexivity.
Defined.

(** ** The Collector: how a run ends *)

Lemma export_loop_app (api : client) (a b : list string) :
  forall f_out,
    export_loop api f_out (a ++ b)%list
    = match (export_loop api f_out a).2 with
      | None =>
          ((export_loop api (export_loop api f_out a).1.1 b).1.1,
           ((export_loop api f_out a).1.2
            ++ (export_loop api (export_loop api f_out a).1.1 b).1.2)%list,
           (export_loop api (export_loop api f_out a).1.1 b).2)
      | Some e => export_loop api f_out a
      end.
Proof.
  induction a as [|user a IH]; intros f_out; cbn [app export_loop].
  - cbn [fst snd app]. by destruct (export_loop api f_out b) as [[f out] exc].
  - destruct (api (request_for user)) as [s|e].
    + destruct (broken s) as [e|]; [reflexivity|].
      rewrite IH.
      destruct (export_loop api (write_lines f_out (lines s)) a)
        as [[f1 out1] [e|]]; cbn [fst snd]; [reflexivity|].
      by destruct (export_loop api f1 b) as [[f2 out2] exc2].
    + destruct e; try reflexivity.
      rewrite IH.
      destruct (export_loop api f_out a) as [[f1 out1] [e|]]; cbn [fst snd];
        [reflexivity|].
      by destruct (export_loop api f1 b) as [[f2 out2] exc2].
Qed.


Lemma export_loop_no_saved (api : client) (usernames : list string) :
  forall f_out, Saved ∉ (export_loop api f_out usernames).1.2.
Proof.
  induction usernames as [|user rest IH]; intros f_out; cbn [export_loop].
  - cbn. by intros Hin%elem_of_nil.
  - destruct (api (request_for user)) as [s|e].
    + destruct (broken s) as [e|].
      * cbn. by intros [=]%list_elem_of_singleton.
      * specialize (IH (write_lines f_out (lines s))).
        destruct (export_loop api _ rest) as [[f1 out1] exc1].
        cbn [fst snd] in *. by intros [[=]|Hin]%elem_of_cons.
    + specialize (IH f_out).
      destruct e; try (cbn; by intros [=]%list_elem_of_singleton).
      destruct (export_loop api f_out rest) as [[f1 out1] exc1].
      cbn [fst snd] in *.
      intros [[=]|Hin]%elem_of_cons.
      by apply elem_of_cons in Hin as [[=]|Hin].
Qed.



Lemma export_loop_one_aborts
    (api : client) (X : string) (e : exn) (post : list string) :
  aborts api X e ->
  forall f_out,
    export_loop api f_out (X :: post)
    = (write_lines f_out (lines_of api X), [Downloading X], Some e).
Proof.
  unfold aborts, lines_of. intros HX f_out. cbn [export_loop].
  destruct (api (request_for X)) as [s|e'].
  - by rewrite HX.
  - destruct HX as (-> & Hne). by destruct e.
Qed.



(** X13: an exception that is not a [ResponseError] of the request itself
    ends the run where it is raised.  When the requests before [X] are
    answered and the request for [X] raises another exception [e], or its
    stream breaks with [e], the run raises [e]; the users up to [X] were
    attempted and none after it; [Saved] is not printed; the file holds the
    lines received up to the exception; and the run is the one of the list
    cut after [X]. *)
Theorem export_games_aborts
    (token : string) (api : client)
    (before_X : list string) (X : string) (after_X : list string)
    (before : option string) (e : exn) :
  token <> "" ->
  (forall user, user ∈ before_X -> answered api user) ->
  aborts api X e ->
  raised (export_games (Some token) api (before_X ++ X :: after_X)%list before)
  = Some e
  /\ attempted
       (printed (export_games (Some token) api
                   (before_X ++ X :: after_X)%list before))
     = (before_X ++ [X])%list
  /\ (Saved ∉ printed (export_games (Some token) api
                          (before_X ++ X :: after_X)%list before))
  /\ file (export_games (Some token) api
             (before_X ++ X :: after_X)%list before)
     = Some (one_per_line (received api before_X ++ lines_of api X)%list)
  /\ export_games (Some token) api (before_X ++ X :: after_X)%list before
     = export_games (Some token) api (before_X ++ [X])%list before.
Proof.
  intros Htoken Hall HX.
  destruct token as [|a token]; [done|]. unfold export_games.
  rewrite !export_loop_app.
  destruct (export_loop_answered api before_X Hall "") as (Hatt & Hexc & _).
  pose proof (export_loop_file api before_X "") as Hfile.
  pose proof (export_loop_no_saved api before_X "") as Hnone.
  destruct (export_loop api "" before_X) as [[f1 out1] exc1].
  cbn [fst snd] in *. subst exc1.
  rewrite !(export_loop_one_aborts api X e _ HX). cbn [fst snd raised printed file].
  split; [done|]. split; [|split; [|split; [|done]]].
  - rewrite attempted_app, Hatt. reflexivity.
  - intros [Hin|Hin]%elem_of_app; [done|].
    by apply list_elem_of_singleton in Hin.
  - rewrite write_lines_one_per_line, Hfile, append_nil.
    by rewrite one_per_line_app.
Qed.

Lemma export_games_aborts_witness :
  raised (export_games (Some "lip_token") breaking_api
            ["alice"; "bob"; "carol"] None) = Some OtherError
  /\ attempted (printed (export_games (Some "lip_token") breaking_api
                           ["alice"; "bob"; "carol"] None))
     = ["alice"; "bob"]
  /\ file (export_games (Some "lip_token") breaking_api
             ["alice"; "bob"; "carol"] None)
     = Some ("[Site a1]" ++ newline ++ "[Site a2]" ++ newline
             ++ "[Site b1]" ++ newline).
Proof.
  assert (Hpre : forall user, user ∈ ["alice"] -> answered breaking_api user).
  { intros user Hin. apply list_elem_of_singleton in Hin as ->. reflexivity. }
  destruct (export_games_aborts "lip_token" breaking_api
              ["alice"] "bob" ["carol"] None OtherError)
    as (Hexc & Hatt & _ & Hfile & _);
    [discriminate | exact Hpre | reflexivity |].
  split; [exact Hexc|]. split; [exact Hatt | exact Hfile].
Defined.




Lemma export_loop_requests (api1 api2 : client) (usernames : list string) :
  (forall user, user ∈ usernames ->
     api1 (request_for user) = api2 (request_for user)) ->
  forall f_out,
    export_loop api1 f_out usernames = export_loop api2 f_out usernames.
Proof.
  induction usernames as [|user rest IH]; intros Hsame f_out;
    cbn [export_loop]; [done|].
  rewrite <- (Hsame user) by (by left).
  assert (Hrest : forall f, export_loop api1 f rest = export_loop api2 f rest).
  { apply IH. intros u Hu. apply Hsame. by right. }
  destruct (api1 (request_for user)) as [s|e].
  - destruct (broken s); [done | by rewrite Hrest].
  - destruct e; try done. by rewrite Hrest.
Qed.

(** X14: a run asks the source one thing per user: the request with that
    user name and the fixed filters (at most [BATCH_SIZE] games, rated,
    blitz and rapid, with openings and tags, without moves, since
    [SINCE_MS]).  Two sources that answer these requests alike give the
    same run, however they answer any other request. *)
Theorem export_games_requests
    (token : option string) (api1 api2 : client) (usernames : list string)
    (before : option string) :
  (forall user, user ∈ usernames ->
     api1 {| username := user; max := 300; rated := true;
             perf_type := "blitz,rapid"; with_openings := true;
             moves := false; tags := true; since := 1577836800000 |}
     = api2 {| username := user; max := 300; rated := true;
               perf_type := "blitz,rapid"; with_openings := true;
               moves := false; tags := true; since := 1577836800000 |}) ->
  export_games token api1 usernames before
  = export_games token api2 usernames before.
Proof.
  intros Hsame. unfold export_games.
  destruct token as [[|a t]|]; try done.
  by rewrite (export_loop_requests api1 api2 usernames Hsame "").
Qed.

Lemma export_games_requests_witness :
  export_games (Some "lip_token") sample_api ["alice"; "zed"; "bob"] None
  = export_games (Some "lip_token") strict_api ["alice"; "zed"; "bob"] None
  /\ strict_api {| username := "alice"; max := 10; rated := true;
                   perf_type := "blitz,rapid"; with_openings := true;
                   moves := false; tags := true; since := 1577836800000 |}
     = Raise OtherError.
Proof.
  split; [|reflexivity].
  apply (export_games_requests (Some "lip_token") sample_api strict_api
           ["alice"; "zed"; "bob"] None).
  intros user _. reflexivity.
Defined.




(** ** [main] of the Collector: the user list *)

Lemma lines_of_chars_line (cs rest : list string) :
  forallb (fun c => negb (Collector.is_linebreak c)) cs = true ->
  Collector.lines_of_chars (cs ++ newline :: rest)%list
  = join cs :: Collector.lines_of_chars rest.
Proof.
  induction cs as [|c cs IH]; cbn [app forallb join].
  - intros _. cbn [Collector.lines_of_chars].
    change (Collector.is_linebreak newline) with true. cbn match.
    by destruct rest.
  - intros [Hc Hcs]%andb_prop. apply negb_true_iff in Hc.
    cbn [Collector.lines_of_chars]. by rewrite Hc, (IH Hcs).
Qed.

Lemma lines_of_chars_last (cs : list string) :
  cs <> [] ->
  forallb (fun c => negb (Collector.is_linebreak c)) cs = true ->
  Collector.lines_of_chars cs = [join cs].
Proof.
  induction cs as [|c cs IH]; [done|]. intros _.
  cbn [forallb join]. intros [Hc Hcs]%andb_prop. apply negb_true_iff in Hc.
  cbn [Collector.lines_of_chars]. rewrite Hc.
  destruct cs as [|d cs]; [cbn; by rewrite append_empty_r|].
  by rewrite IH.
Qed.

Lemma splitlines_line (name rest : string) :
  no_linebreak name = true ->
  Collector.splitlines (name ++ newline ++ rest)
  = name :: Collector.splitlines rest.
Proof.
  unfold no_linebreak, Collector.splitlines, newline. intros Hclean.
  unfold_append. rewrite chars_app_ascii by (vm_compute; reflexivity).
  rewrite (lines_of_chars_line _ _ Hclean). by rewrite join_chars.
Qed.

Lemma splitlines_last (name : string) :
  name <> "" -> no_linebreak name = true ->
  Collector.splitlines name = [name].
Proof.
  unfold no_linebreak, Collector.splitlines. intros Hne Hclean.
  rewrite lines_of_chars_last, join_chars; [done | | done].
  destruct name as [|a name]; [done|]. apply chars_nonnil.
Qed.

Lemma splitlines_one_per_line (names : list string) (rest : string) :
  (forall name, name ∈ names -> no_linebreak name = true) ->
  Collector.splitlines (one_per_line names ++ rest)
  = (names ++ Collector.splitlines rest)%list.
Proof.
  induction names as [|name names IH]; intros Hclean;
    cbn [one_per_line app].
  - by unfold_append.
  - rewrite !append_assoc, splitlines_line by (apply Hclean; by left).
    rewrite IH; [done|]. intros n Hn. apply Hclean. by right.
Qed.

(** X16: [main] runs the export over the lines of the user list.  For
    names that hold no line boundary, a list file with one name per line
    gives exactly these names, in order and with their repetitions, whether
    or not the last line ends in a newline; an empty line gives the empty
    name, which is requested like any other. *)
Theorem main_reads_user_list
    (token : option string) (api : client) (names : list string)
    (before : option string) :
  (forall name, name ∈ names -> no_linebreak name = true) ->
  Collector.splitlines (one_per_line names) = names
  /\ Collector.main token api (one_per_line names) before
     = export_games token api names before
  /\ (forall last, last <> "" -> no_linebreak last = true ->
        Collector.main token api (one_per_line names ++ last) before
        = export_games token api (names ++ [last])%list before).
Proof.
  intros Hclean.
  assert (Hlines : Collector.splitlines (one_per_line names) = names).
  { rewrite <- (append_empty_r (one_per_line names)).
    rewrite splitlines_one_per_line by done. cbn. by rewrite app_nil_r. }
  split; [exact Hlines|]. unfold Collector.main.
  split; [by rewrite Hlines|].
  intros last Hne Hlast.
  by rewrite splitlines_one_per_line, splitlines_last.
Qed.

Lemma main_reads_user_list_witness :
  Collector.main (Some "lip_token") sample_api
    ("alice" ++ newline ++ "" ++ newline ++ "bob" ++ newline) None
  = export_games (Some "lip_token") sample_api ["alice"; ""; "bob"] None.
Proof.
  assert (Hclean : forall name, name ∈ ["alice"; ""; "bob"] ->
                     no_linebreak name = true).
  { intros name Hin. apply elem_of_cons in Hin as [->|Hin]; [reflexivity|].
    apply elem_of_cons in Hin as [->|Hin]; [reflexivity|].
    apply list_elem_of_singleton in Hin as ->. reflexivity. }
  destruct (main_reads_user_list (Some "lip_token") sample_api
              ["alice"; ""; "bob"] None Hclean) as (_ & Hmain & _).
  exact Hmain.
Defined.

(** ** The Loader: the name and the family of an opening *)

Lemma process_game_openings
    (cur : db) (game : pgn_game) (cur' : db) (g : Game.row) :
  process_game cur game = Ok (cur', g) ->
  (forall eco, eco <> eco_of game ->
     openings cur' !! eco = openings cur !! eco)
  /\ exists o f, openings cur' !! eco_of game = Some o
       /\ Opening.name o = opening_name_of game
       /\ opening_family (opening_name_of game) = Ok f
       /\ (openings cur !! eco_of game = None -> Opening.family o = f).
Proof.
  intros Hg.
  destruct (process_game_steps _ _ _ _ Hg)
    as (cur1 & oid & wr & br & Ho & _ & _ & _ & ->).
  rewrite insert_game_openings. cbn [upsert_player fst openings].
  unfold eco_of, opening_name_of. revert Ho. unfold upsert_opening.
  destruct (opening_family _) as [f|]; [|discriminate].
  cbn [mbind result_bind]. intros [= <- <-]. cbn [openings]. split.
  - intros eco Hne. by rewrite lookup_insert_ne.
  - rewrite lookup_insert_eq. eexists _, f. split; [reflexivity|].
    split; [by destruct (openings cur !! _)|]. split; [done|].
    by intros ->.
Qed.

Lemma process_games_other_openings (store : list pgn_game) (eco : string) :
  forall (cur : db) (game_ct : Z) (r : db * Z * list progress),
    process_games cur game_ct store = Ok r ->
    (forall game, game ∈ store -> eco_of game <> eco) ->
    openings r.1.1 !! eco = openings cur !! eco.
Proof.
  induction store as [|game rest IH]; intros cur game_ct r Hr Hother.
  - by injection Hr as <-.
  - destruct (process_games_cons _ _ _ _ _ Hr)
      as (cur' & g & r' & Hg & Hrest & <-).
    rewrite (IH _ _ _ Hrest) by (intros g' Hg'; apply Hother; by right).
    destruct (process_game_openings _ _ _ _ Hg) as (Hframe & _).
    apply Hframe. intros ->. by apply (Hother game); [left|].
Qed.

Lemma process_games_last_name (pre : list pgn_game) :
  forall (cur : db) (game_ct : Z) (game : pgn_game) (post : list pgn_game)
         (r : db * Z * list progress),
    process_games cur game_ct (pre ++ game :: post)%list = Ok r ->
    (forall later, later ∈ post -> eco_of later <> eco_of game) ->
    exists o, openings r.1.1 !! eco_of game = Some o
      /\ Opening.name o = opening_name_of game.
Proof.
  induction pre as [|e pre IH]; intros cur game_ct game post r Hr Hpost;
    cbn [app] in Hr;
    destruct (process_games_cons _ _ _ _ _ Hr)
      as (cur' & g & r' & Hg & Hrest & <-).
  - rewrite (process_games_other_openings _ _ _ _ _ Hrest Hpost).
    destruct (process_game_openings _ _ _ _ Hg)
      as (_ & o & f & Ho & Hname & _).
    by exists o.
  - by eapply IH.
Qed.

Lemma process_games_first_family (pre : list pgn_game) :
  forall (cur : db) (game_ct : Z) (game : pgn_game) (post : list pgn_game)
         (r : db * Z * list progress),
    process_games cur game_ct (pre ++ game :: post)%list = Ok r ->
    openings cur !! eco_of game = None ->
    (forall earlier, earlier ∈ pre -> eco_of earlier <> eco_of game) ->
    exists o, openings r.1.1 !! eco_of game = Some o
      /\ opening_family (opening_name_of game) = Ok (Opening.family o).
Proof.
  induction pre as [|e pre IH]; intros cur game_ct game post r Hr Hnew Hpre;
    cbn [app] in Hr;
    destruct (process_games_cons _ _ _ _ _ Hr)
      as (cur' & g & r' & Hg & Hrest & <-).
  - destruct (process_game_openings _ _ _ _ Hg)
      as (_ & o & f & Ho & _ & Hf & Hfam).
    destruct (process_games_keeps_rows _ _ _ _ Hrest) as (_ & _ & Hkeep).
    destruct (Hkeep _ _ Ho) as (o' & Ho' & _ & Hfam').
    exists o'. split; [exact Ho'|]. rewrite Hfam', (Hfam Hnew). exact Hf.
  - eapply IH; [exact Hrest | |].
    + destruct (process_game_openings _ _ _ _ Hg) as (Hframe & _).
      rewrite Hframe; [exact Hnew|].
      intros Heq. apply (Hpre e); [by left | done].
    + intros earlier Hin. apply Hpre. by right.
Qed.

(** X17: over a load the name of an opening is that of the last record
    with its ECO code, and its family comes from the first.  After a load
    that went through, the opening stored for the code of a record that no
    later record shares has that record's opening name; and when the code
    was neither stored nor named by an earlier record, the stored family is
    the one derived from that record's opening name, whatever names later
    records give the code. *)
Theorem process_pgn_opening_name_family
    (cur : db) (pre : list pgn_game) (game : pgn_game) (post : list pgn_game)
    (cur' : db) (out : list progress) :
  process_pgn cur (pre ++ game :: post)%list = Ok (cur', out) ->
  ((forall later, later ∈ post -> eco_of later <> eco_of game) ->
   exists o, openings cur' !! eco_of game = Some o
     /\ Opening.name o = opening_name_of game)
  /\ (openings cur !! eco_of game = None ->
      (forall earlier, earlier ∈ pre -> eco_of earlier <> eco_of game) ->
      exists o, openings cur' !! eco_of game = Some o
        /\ opening_family (opening_name_of game) = Ok (Opening.family o)).
Proof.
  intros Hload.
  destruct (process_pgn_inv _ _ _ _ Hload) as (total & outs & Hloop & _).
  split.
  - intros Hpost. exact (process_games_last_name _ _ _ _ _ _ Hloop Hpost).
  - intros Hnew Hpre.
    exact (process_games_first_family _ _ _ _ _ _ Hloop Hnew Hpre).
Qed.

Lemma process_pgn_opening_name_family_witness :
  exists cur' out o,
    process_pgn empty_db renamed_store = Ok (cur', out)
    /\ openings cur' !! "B90" = Some o
    /\ Opening.name o = "Najdorf Variation"
    /\ Opening.family o = "Sicilian Defense".
Proof.
  assert (Hfirst : exists r, process_pgn empty_db renamed_store = Ok r).
  { eexists. vm_compute. reflexivity. }
  destruct Hfirst as ([cur' out] & Hload).
  destruct (process_pgn_opening_name_family empty_db
              [najdorf_game; no_black_elo_game] najdorf_renamed [] cur' out
              Hload) as (Hname & _).
  destruct (process_pgn_opening_name_family empty_db
              [] najdorf_game [no_black_elo_game; najdorf_renamed] cur' out
              Hload) as (_ & Hfamily).
  destruct Hname as (o & Ho & Hn).
  { intros later Hin. inversion Hin. }
  destruct Hfamily as (o' & Ho' & Hf).
  { vm_compute. reflexivity. }
  { intros earlier Hin. inversion Hin. }
  exists cur', out, o. split; [exact Hload|]. split; [exact Ho|].
  split; [exact Hn|].
  assert (Heq : o' = o).
  { assert (Hsame : Some o' = Some o) by (rewrite <- Ho', <- Ho; reflexivity).
    by injection Hsame. }
  subst o'.
  assert (Hfam : opening_family (opening_name_of najdorf_game)
                 = Ok "Sicilian Defense") by (vm_compute; reflexivity).
  rewrite Hfam in Hf. by injection Hf.
Defined.

(** ** The Loader: a second load of the same store *)

Lemma process_game_players_same
    (cur : db) (game : pgn_game) (cur' : db) (g : Game.row)
    (wr br : Z) (pw pb : Player.row) :
  process_game cur game = Ok (cur', g) ->
  get_int (headers game) "WhiteElo" = Ok wr ->
  get_int (headers game) "BlackElo" = Ok br ->
  players cur !! white_of game = Some pw ->
  wr <= Player.highest_rating pw ->
  players cur !! black_of game = Some pb ->
  br <= Player.highest_rating pb ->
  players cur' = players cur.
Proof.
  intros Hg Hw Hb Hpw Hwle Hpb Hble.
  destruct (process_game_steps _ _ _ _ Hg)
    as (cur1 & oid & wr' & br' & Ho & Hw' & Hb' & _ & ->).
  rewrite Hw in Hw'. injection Hw' as <-.
  rewrite Hb in Hb'. injection Hb' as <-.
  destruct (upsert_opening_frame _ _ _ _ _ Ho) as (Hp1 & _ & _).
  rewrite insert_game_players. unfold white_of, black_of in *.
  assert (Hwhite : players (upsert_player cur1
                              (get (headers game) "White" "?") wr).1
                   = players cur).
  { unfold upsert_player. cbn [fst players]. rewrite Hp1, Hpw.
    rewrite <- Hp1. rewrite Hp1. apply insert_id. rewrite Hpw. f_equal.
    destruct pw as [id hr]. cbn in *. f_equal. lia. }
  unfold upsert_player at 1. cbn [fst players]. rewrite Hwhite, Hpb.
  apply insert_id. rewrite Hpb. f_equal.
  destruct pb as [id hr]. cbn in *. f_equal. lia.
Qed.

Lemma process_games_players_same (store : list pgn_game) :
  forall (cur : db) (game_ct : Z) (r : db * Z * list progress),
    process_games cur game_ct store = Ok r ->
    (forall game, game ∈ store ->
       exists wr br pw pb,
         get_int (headers game) "WhiteElo" = Ok wr
         /\ get_int (headers game) "BlackElo" = Ok br
         /\ players cur !! white_of game = Some pw
         /\ wr <= Player.highest_rating pw
         /\ players cur !! black_of game = Some pb
         /\ br <= Player.highest_rating pb) ->
    players r.1.1 = players cur.
Proof.
  induction store as [|game rest IH]; intros cur game_ct r Hr Hall.
  - by injection Hr as <-.
  - destruct (process_games_cons _ _ _ _ _ Hr)
      as (cur' & g & r' & Hg & Hrest & <-).
    destruct (Hall game) as (wr & br & pw & pb & Hw & Hb & Hpw & Hwle
                             & Hpb & Hble); [by left|].
    pose proof (process_game_players_same _ _ _ _ _ _ _ _
                  Hg Hw Hb Hpw Hwle Hpb Hble) as Hsame.
    rewrite (IH _ _ _ Hrest); [exact Hsame|].
    intros game' Hin. rewrite Hsame. apply Hall. by right.
Qed.

Lemma last_with_eco (eco : string) (store : list pgn_game) :
  (forall game, game ∈ store -> eco_of game <> eco)
  \/ exists pre game post,
       store = (pre ++ game :: post)%list /\ eco_of game = eco
       /\ forall later, later ∈ post -> eco_of later <> eco.
Proof.
  induction store as [|game rest [Hnone|(pre & last & post & -> & He & Hp)]].
  - left. intros game Hin. inversion Hin.
  - destruct (decide (eco_of game = eco)) as [He|Hne].
    + right. by exists [], game, rest.
    + left. intros g [->|Hin]%elem_of_cons; [done | by apply Hnone].
  - right. by exists (game :: pre), last, post.
Qed.

Lemma opening_row_eq (o1 o2 : Opening.row) :
  Opening.opening_id o1 = Opening.opening_id o2 ->
  Opening.name o1 = Opening.name o2 ->
  Opening.family o1 = Opening.family o2 ->
  o1 = o2.
Proof. destruct o1, o2. cbn. by intros -> -> ->. Qed.

Lemma process_games_openings_reload
    (store : list pgn_game) (cur : db) (ct1 ct2 : Z)
    (r1 r2 : db * Z * list progress) :
  process_games cur ct1 store = Ok r1 ->
  process_games r1.1.1 ct2 store = Ok r2 ->
  openings r2.1.1 = openings r1.1.1.
Proof.
  intros H1 H2. apply map_eq. intros eco.
  destruct (last_with_eco eco store)
    as [Hnone|(pre & game & post & -> & <- & Hpost)].
  - by rewrite (process_games_other_openings _ _ _ _ _ H2 Hnone).
  - destruct (process_games_last_name _ _ _ _ _ _ H1 Hpost)
      as (o1 & Ho1 & Hn1).
    destruct (process_games_last_name _ _ _ _ _ _ H2 Hpost)
      as (o2 & Ho2 & Hn2).
    destruct (process_games_keeps_rows _ _ _ _ H2) as (_ & _ & Hkeep).
    destruct (Hkeep _ _ Ho1) as (o' & Ho' & Hid & Hfam).
    rewrite Ho2 in Ho'. injection Ho' as <-.
    rewrite Ho1, Ho2. f_equal. apply opening_row_eq; congruence.
Qed.

(** X18: a second load of the same store changes no table.  After a load
    that went through, a load of the same store goes through, prints what
    the first printed and leaves the rows of [players], of [openings] and
    of [games] as the first load left them. *)
Theorem process_pgn_reload
    (cur : db) (store : list pgn_game) (cur1 : db) (out1 : list progress) :
  process_pgn cur store = Ok (cur1, out1) ->
  exists cur2 out2,
    process_pgn cur1 store = Ok (cur2, out2)
    /\ players cur2 = players cur1
    /\ openings cur2 = openings cur1
    /\ games cur2 = games cur1
    /\ out2 = out1.
Proof.
  intros Hload.
  destruct (process_pgn_inv _ _ _ _ Hload) as (total & outs & Hfirst & ->).
  destruct (process_games_keys _ _ _ _ Hfirst) as (_ & Hkeys).
  destruct (process_games_reload _ _ _ _ Hfirst cur1 0 Hkeys)
    as ([[cur2 total2] outs2] & Hsecond & Hgames).
  cbn [fst] in Hkeys, Hgames.
  pose proof (process_games_rated _ _ _ _ Hfirst) as Hrated.
  pose proof (process_games_players_same _ _ _ _ Hsecond Hrated) as Hplayers.
  pose proof (process_games_openings_reload _ _ _ _ _ _ Hfirst Hsecond)
    as Hopenings.
  pose proof (process_games_outcome store cur 0) as Hout1.
  pose proof (process_games_outcome store cur1 0) as Hout2.
  destruct (first_failure store) as [e|]; [congruence|].
  destruct Hout1 as (c1 & Hc1). destruct Hout2 as (c2 & Hc2).
  rewrite Hc1 in Hfirst. rewrite Hc2 in Hsecond.
  injection Hfirst as -> <- <-. injection Hsecond as -> <- <-.
  exists cur2, (thousands 0 (List.length store)
                ++ [Finished (0 + Z.of_nat (List.length store))])%list.
  unfold process_pgn. rewrite Hc2. cbn [mbind result_bind].
  by repeat split.
Qed.

Lemma process_pgn_reload_witness :
  exists cur1 out1 cur2 out2,
    process_pgn empty_db renamed_store = Ok (cur1, out1)
    /\ process_pgn cur1 renamed_store = Ok (cur2, out2)
    /\ players cur2 = players cur1
    /\ openings cur2 = openings cur1.
Proof.
  assert (Hfirst : exists r, process_pgn empty_db renamed_store = Ok r).
  { eexists. vm_compute. reflexivity. }
  destruct Hfirst as ([cur1 out1] & Hload).
  destruct (process_pgn_reload _ _ _ _ Hload)
    as (cur2 & out2 & Hsecond & Hplayers & Hopenings & _).
  exists cur1, out1, cur2, out2.
  split; [exact Hload|]. split; [exact Hsecond|].
  split; [exact Hplayers | exact Hopenings].
Defined.
